(** * TailFS remote file system: shares, per-user servers and the share router

    A shallow embedding of [tailfs/tailfsimpl/remote_impl.go].  The Go
    maps are stdpp [gmap]s, the [*userServer] and [*compositedav.Child]
    pointers are locations, durations are [int64] nanosecond counts held in
    [Z], and everything the file obtains from the operating system or from
    packages outside this file (process creation, pipes, the clock, the
    standard library's parsers) enters the model as an explicit oracle. *)

From Stdlib Require Import ZArith Lia Ascii String List.
From stdpp Require Import base option list gmap strings fin_maps.

Local Open Scope string_scope.
Local Open Scope list_scope.
Local Open Scope Z_scope.

(** ** Collaborators outside the file *)

(** What [remote_impl.go] calls but does not define: functions of the Go
    standard library and of sibling packages, and the operating system. *)
Class Platform := {
  (** [strings.TrimSpace] *)
  strings_TrimSpace : string → string;
  (** [net.SplitHostPort]: host and port, or [None] for an error *)
  net_SplitHostPort : string → option (string * string);
  (** [hex.DecodeString], [None] for an error *)
  hex_DecodeString : string → option string;
  (** [hex.EncodeToString] *)
  hex_EncodeToString : string → string;
  (** [url.PathEscape] *)
  url_PathEscape : string → string;
  (** [netip.ParseAddrPort] returned a nil error *)
  netip_ParseAddrPort_ok : string → bool;
  (** [shared.CleanAndSplit] *)
  shared_CleanAndSplit : string → list string;
  (** [tailfs.AllowShareAs()] *)
  tailfs_AllowShareAs : bool;
  (** [os.Executable()]: an error or the path *)
  os_Executable : string + string;
  (** [Process.Kill()] of the process with this id: an error or nil *)
  Process_Kill : nat → option string;
  (** [net.Dial("tcp", addr)] and [safesocket.Connect(addr)]: an error or
      a connection *)
  net_Dial_tcp : string → string + nat;
  safesocket_Connect : string → string + nat;
  (** the [int64] a float64 outside the [int64] range converts to; the
      language leaves it to the implementation *)
  float64_overflow_int64 : Z;
}.

Module tailfs.
(** The fields of [tailfs.Share] the file reads. *)
Record Share := mkShare { Name : string; Path : string; As : string }.

Inductive Permission := PermissionNone | PermissionReadOnly | PermissionReadWrite.

(** [tailfs.Permissions], seen through its only method [For]. *)
Definition Permissions := string → Permission.
Definition For (p : Permissions) (share : string) : Permission := p share.
End tailfs.

Module user.
(** [os/user.User] *)
Record User := mkUser { Uid : string; Name : string }.
End user.

Module exec.
(** [os/exec.Cmd]; [Process] is set once [Start] has succeeded. *)
Record Cmd := mkCmd { Path : string; Args : list string; Process : option nat }.

Definition Command (name : string) (args : list string) : Cmd :=
  {| Path := name; Args := name :: args; Process := None |}.
End exec.

#[global] Instance Permission_eq_dec : EqDecision tailfs.Permission.
Proof. solve_decision. Defined.

#[global] Instance Share_eq_dec : EqDecision tailfs.Share.
Proof. solve_decision. Defined.

(** ** Errors and observable effects *)

(** The error values the file builds with [fmt.Errorf], one constructor per
    format string; the argument is what the format prints. *)
Inductive error :=
  | ErrFindCurrentUser (e : string)   (* "assertNotRoot failed to find current user: %s" *)
  | ErrIsRoot (name : string)         (* "%q is root" *)
  | ErrStdoutPipe (e : string)        (* "stdout pipe: %w" *)
  | ErrStderrPipe (e : string)        (* "stderr pipe: %w" *)
  | ErrStart (e : string)             (* "start: %w" *)
  | ErrReadAddr (e : string)          (* "read addr: %w" *)
  | ErrWait (e : string)              (* the error of cmd.Wait() *)
  | ErrParseShareAddr (shareAddr : string)   (* "unable to parse share address %v: %w" *)
  | ErrDecodeShareName (host : string)       (* "unable to decode share name from host %v: %v" *)
  | ErrUnknownShare (shareName : string)     (* "unknown share %v" *)
  | ErrNoAddress (shareName : string).       (* "unable to determine address for share %v" *)

Inductive stream := Stdout | Stderr.

(** What one call of [run] does to the world besides updating the
    [userServer]. *)
Inductive event :=
  | Logf (format : string) (args : list string)   (* s.logf(format, args...) *)
  | Started (c : exec.Cmd)       (* cmd.Start() returned nil: a child process exists *)
  | GoDrain (f : stream)         (* go func() { for scanner.Scan() { logf ... } }() *)
  | PipeClosed (f : stream).     (* the deferred stdout.Close() / stderr.Close() *)

(** ** userServer *)

Record userServer := mkUserServer {
  shares : list tailfs.Share;
  username : string;
  executable : string;
  (* guarded by mu *)
  cmd : option exec.Cmd;
  addr : string;
  closed : bool;
}.

Definition set_cmd (c : exec.Cmd) (s : userServer) : userServer :=
  {| shares := shares s; username := username s; executable := executable s;
     cmd := Some c; addr := addr s; closed := closed s |}.

Definition set_addr (a : string) (s : userServer) : userServer :=
  {| shares := shares s; username := username s; executable := executable s;
     cmd := cmd s; addr := a; closed := closed s |}.

Definition set_closed (b : bool) (s : userServer) : userServer :=
  {| shares := shares s; username := username s; executable := executable s;
     cmd := cmd s; addr := addr s; closed := b |}.

Definition append_share (sh : tailfs.Share) (s : userServer) : userServer :=
  {| shares := shares s ++ [sh]; username := username s; executable := executable s;
     cmd := cmd s; addr := addr s; closed := closed s |}.

(** The first [Scan] of a [bufio.Scanner] over the child's standard output,
    as the three observations [run] makes of it.  End of input is not an
    error of the scanner: [Err] is nil and [Text] is empty. *)
Inductive scan_outcome :=
  | ScanLine (line : string)   (* a token was read; Err() = nil *)
  | ScanEOF                    (* no token, input ended; Err() = nil *)
  | ScanFail (e : string).     (* Err() = e *)

Definition scan_Err (o : scan_outcome) : option string :=
  match o with ScanFail e => Some e | _ => None end.

Definition scan_Text (o : scan_outcome) : string :=
  match o with ScanLine l => l | _ => EmptyString end.

(** What the operating system answers during one call of [run]. *)
Record RunEnv := mkRunEnv {
  (** [sudo -n -u username executable -h] ran to success within 3 seconds *)
  sudo_probe : string → string → bool;
  (** [user.Current()] *)
  user_Current : string + user.User;
  StdoutPipe_err : option string;
  StderrPipe_err : option string;
  (** [cmd.Start()]: an error, or the process started *)
  Start_result : string + nat;
  first_Scan : scan_outcome;
  Wait_err : option string;
}.

Definition canSudo (o : RunEnv) (s : userServer) : bool :=
  sudo_probe o (username s) (executable s).

Definition assertNotRoot (o : RunEnv) : option error :=
  match user_Current o with
  | inl err => Some (ErrFindCurrentUser err)
  | inr u =>
      if decide (user.Uid u = "0") then Some (ErrIsRoot (user.Name u)) else None
  end.

Definition run_args (s : userServer) : list string :=
  "serve-tailfs" :: flat_map (λ sh, [tailfs.Name sh; tailfs.Path sh]) (shares s).

(** The part of [run] after the command has been set up. *)
Definition run_started `{Platform} (o : RunEnv) (c : exec.Cmd) (s : userServer)
    (log : list event) : option error * userServer * list event :=
  match StdoutPipe_err o with
  | Some e => (Some (ErrStdoutPipe e), s, log)
  | None =>
    match StderrPipe_err o with
    | Some e => (Some (ErrStderrPipe e), s, log ++ [PipeClosed Stdout])
    | None =>
      let deferred := [PipeClosed Stderr; PipeClosed Stdout] in
      match Start_result o with
      | inl e => (Some (ErrStart e), s, log ++ deferred)
      | inr pid =>
        let c := {| exec.Path := exec.Path c; exec.Args := exec.Args c;
                    exec.Process := Some pid |} in
        let s := set_cmd c s in
        let log := log ++ [Started c] in
        match scan_Err (first_Scan o) with
        | Some e => (Some (ErrReadAddr e), s, log ++ deferred)
        | None =>
          let addr := scan_Text (first_Scan o) in
          let log := log ++ [GoDrain Stdout; GoDrain Stderr] in
          let s := set_addr (strings_TrimSpace addr) s in
          (ErrWait <$> Wait_err o, s, log ++ deferred)
        end
      end
    end
  end.

Definition run `{Platform} (o : RunEnv) (s : userServer)
    : option error * userServer * list event :=
  let args := run_args s in
  if canSudo o s then
    let allArgs := ["-n"; "-u"; username s; executable s] ++ args in
    run_started o (exec.Command "sudo" allArgs) s
      [Logf "starting TailFS file server as user %q" [username s]]
  else
    match assertNotRoot o with
    | Some err => (Some err, s, [])
    | None =>
      run_started o (exec.Command (executable s) args) s
        [Logf "starting TailFS file server as ourselves" []]
    end.

(** ** The retry loop *)

(** [time.Duration] is an [int64] count of nanoseconds. *)
Definition Millisecond : Z := 1000000.
Definition Second : Z := 1000 * Millisecond.
Definition minDuration : Z := - 2 ^ 63.
Definition maxDuration : Z := 2 ^ 63 - 1.

(** [int64] arithmetic wraps around. *)
Definition wrap_int64 (z : Z) : Z := (z + 2 ^ 63) mod 2 ^ 64 - 2 ^ 63.

(** [Time.Sub]: the difference, saturated to the range of [Duration].  A
    [time.Time] is held as nanoseconds since the zero [Time]. *)
Definition time_Sub (t u : Z) : Z :=
  let d := t - u in
  if decide (d < minDuration) then minDuration
  else if decide (maxDuration < d) then maxDuration
  else d.

(** [consecutiveFailures++] on a float64 holding a whole number: exact
    below 2^53, absorbed from there on. *)
Definition float64_incr (x : Z) : Z :=
  if decide (x < 2 ^ 53) then x + 1 else x.

(** [time.Duration(math.Pow(2, x))] for a whole number [x >= 0]: the power
    is exact as a float64, and converts exactly while it fits an [int64]. *)
Definition Duration_of_Pow2 `{Platform} (x : Z) : Z :=
  if decide (x < 63) then 2 ^ x else float64_overflow_int64.

Definition maxSleepTime : Z := 30 * Second.

(** The two locals [runLoop] carries from one iteration to the next. *)
Record backoff := mkBackoff {
  consecutiveFailures : Z;
  timeOfLastFailure : Z;
}.

Definition backoff_init : backoff :=
  {| consecutiveFailures := 0; timeOfLastFailure := 0 |}.

(** The body of the loop between [run] returning and [time.Sleep]: the new
    locals and [sleepTime]. *)
Definition next_sleep `{Platform} (st : backoff) (now : Z) : backoff * Z :=
  let timeSinceLastFailure := time_Sub now (timeOfLastFailure st) in
  let consecutiveFailures :=
    if decide (timeSinceLastFailure < maxSleepTime)
    then float64_incr (consecutiveFailures st)
    else 1 in
  let sleepTime := wrap_int64 (Duration_of_Pow2 consecutiveFailures * Millisecond) in
  let sleepTime :=
    if decide (sleepTime > maxSleepTime) then maxSleepTime else sleepTime in
  ({| consecutiveFailures := consecutiveFailures; timeOfLastFailure := now |},
   sleepTime).

(** What the rest of the system does around one iteration of [runLoop]. *)
Record IterEnv := mkIterEnv {
  (** [Close] was called on this server since the previous iteration *)
  close_called : bool;
  run_env : RunEnv;
  (** how long [run] took to return, in nanoseconds *)
  run_elapsed : N;
  (** how much longer than asked [time.Sleep] paused *)
  sleep_extra : N;
}.

(** One completed iteration, as an observer of the loop sees it; [at_err]
    and [at_sleep] are what the loop's log line prints. *)
Record attempt := mkAttempt {
  at_err : option error;
  at_events : list event;
  at_before : Z;        (* consecutiveFailures when run returned *)
  at_gap : Z;           (* timeSinceLastFailure *)
  at_failures : Z;      (* consecutiveFailures after the update *)
  at_sleep : Z;         (* sleepTime *)
}.

(** [runLoop], one list element per iteration; [clock] is what
    [time.Now()] would return when the iteration begins.  [time.Sleep]
    pauses at least the time asked and returns at once for a negative
    one. *)
Fixpoint runLoop_from `{Platform} (envs : list IterEnv) (st : backoff) (clock : Z)
    (s : userServer) : userServer * list attempt :=
  match envs with
  | [] => (s, [])
  | e :: envs =>
    let s := if close_called e then set_closed true s else s in
    if closed s then (s, [])
    else
      let '(err, s, evs) := run (run_env e) s in
      let now := clock + Z.of_N (run_elapsed e) in
      let '(st', sleepTime) := next_sleep st now in
      let clock := now + Z.max 0 sleepTime + Z.of_N (sleep_extra e) in
      let '(s', rest) := runLoop_from envs st' clock s in
      (s', {| at_err := err; at_events := evs;
              at_before := consecutiveFailures st;
              at_gap := time_Sub now (timeOfLastFailure st);
              at_failures := consecutiveFailures st';
              at_sleep := sleepTime |} :: rest)
  end.

Definition runLoop `{Platform} (envs : list IterEnv) (clock : Z) (s : userServer)
    : userServer * list attempt :=
  runLoop_from envs backoff_init clock s.

(** The delay after a first failure, which the later ones double. *)
Definition initialSleep `{Platform} : Z := (next_sleep backoff_init maxSleepTime).2.

(** What the loop computes at one attempt: the failure count goes up by one
    when the previous failure was less than the ceiling ago and starts
    again at 1 when it was the ceiling or more ago, and the delay is the
    initial delay doubled once per failure counted beyond the first, capped
    at the ceiling. *)
Definition backs_off `{Platform} (a : attempt) : Prop :=
  (at_gap a < maxSleepTime → at_failures a = at_before a + 1) ∧
  (maxSleepTime ≤ at_gap a → at_failures a = 1 ∧ at_sleep a = initialSleep) ∧
  1 ≤ at_failures a ∧
  at_sleep a = Z.min (2 ^ (at_failures a - 1) * initialSleep) maxSleepTime.

(** The locals of the loop once the sleep of an attempt is over: at most 15
    failures are counted, and the clock is past the last failure by at
    least the delay that was slept. *)
Definition slept `{Platform} (st : backoff) (clock : Z) : Prop :=
  consecutiveFailures st = 0 ∨
  (1 ≤ consecutiveFailures st ≤ 15 ∧
   timeOfLastFailure st +
     Z.min (2 ^ consecutiveFailures st * Millisecond) maxSleepTime ≤ clock).

(** ** The file system for remote nodes *)

(** Addresses of heap objects: [*userServer] and [*compositedav.Child]. *)
Definition loc := nat.

Module compositedav.
(** [compositedav.Child] as [buildChild] fills it in.  Its [Transport]
    is the [Dial] function below, the same closure for every child; [ptr]
    is the address of the object. *)
Record Child := mkChild { ptr : loc; Name : string; BaseURL : string }.
End compositedav.

Module http.
(** The two fields of [http.Request] that [ServeHTTPWithPerms] reads. *)
Record Request := mkRequest { Method : string; URL_Path : string }.

Definition StatusForbidden : Z := 403.
Definition StatusNotFound : Z := 404.
End http.

(** The fields of [FileSystemForRemote] guarded by [mu]. *)
Record FileSystemForRemote := mkFS {
  fileServerAddr : string;
  fs_shares : gmap string tailfs.Share;
  children : gmap string compositedav.Child;
  userServers : gmap string loc;
}.

Definition NewFileSystemForRemote : FileSystemForRemote :=
  {| fileServerAddr := EmptyString; fs_shares := ∅; children := ∅; userServers := ∅ |}.

(** Effects of the configuration operations other than field writes, in
    the order they happen. *)
Inductive effect :=
  | ELogf (format : string) (args : list string)   (* s.logf(format, args...) *)
  | EGo (p : loc)                (* go p.runLoop() *)
  | EKill (pid : nat)            (* cmd.Process.Kill() *)
  | EStopped (p : loc)           (* server.Close() has returned *)
  | ECloseIdle (c : loc).        (* child.CloseIdleConnections() *)

(** The memory all goroutines share. *)
Record World := mkWorld {
  fs : FileSystemForRemote;
  mu_locked : bool;                 (* s.mu is held for writing *)
  heap : gmap loc userServer;       (* the userServer objects *)
  next_loc : loc;                   (* first address never handed out *)
  effects : list effect;
}.

Definition with_fs (f : FileSystemForRemote → FileSystemForRemote) (w : World) : World :=
  {| fs := f (fs w); mu_locked := mu_locked w; heap := heap w;
     next_loc := next_loc w; effects := effects w |}.

Definition with_lock (b : bool) (w : World) : World :=
  {| fs := fs w; mu_locked := b; heap := heap w;
     next_loc := next_loc w; effects := effects w |}.

Definition with_effects (es : list effect) (w : World) : World :=
  {| fs := fs w; mu_locked := mu_locked w; heap := heap w;
     next_loc := next_loc w; effects := effects w ++ es |}.

Definition with_object (p : loc) (u : userServer) (w : World) : World :=
  {| fs := fs w; mu_locked := mu_locked w; heap := <[p := u]> (heap w);
     next_loc := Nat.max (next_loc w) (S p); effects := effects w |}.

Definition with_next (p : loc) (w : World) : World :=
  {| fs := fs w; mu_locked := mu_locked w; heap := heap w;
     next_loc := Nat.max (next_loc w) (S p); effects := effects w |}.

(** [SetFileServerAddr] *)
Definition SetFileServerAddr (addr : string) (w : World) : World :=
  with_fs (λ s, {| fileServerAddr := addr; fs_shares := fs_shares s;
                   children := children s; userServers := userServers s |}) w.

(** [userServer.Close]: the error returned, the server afterwards and the
    process killed, if any. *)
Definition userServer_Close `{Platform} (s : userServer)
    : option string * userServer * option nat :=
  let cmd := cmd s in
  let s := set_closed true s in
  match cmd with
  | Some c =>
      match exec.Process c with
      | Some pid => (Process_Kill pid, s, Some pid)
      | None => (None, s, None)
      end
  | None => (None, s, None)
  end.

(** The atomic steps the configuration operations are made of. *)
Inductive step :=
  | SLogf (format : string) (args : list string)
  | SNew (p : loc) (u : userServer)     (* a userServer built by the grouping loop *)
  | SNewChild (c : compositedav.Child)  (* s.buildChild(share) *)
  | SGo (p : loc)                       (* go p.runLoop() *)
  | SLock                               (* s.mu.Lock() *)
  | SUnlock                             (* s.mu.Unlock() *)
  | SSetShares (m : gmap string tailfs.Share)            (* s.shares = ... *)
  | SSetChildren (m : gmap string compositedav.Child)    (* s.children = ... *)
  | SSetUserServers (m : gmap string loc)                (* s.userServers = ... *)
  | SStop (p : loc)                     (* server.Close() and the logging of its error *)
  | SCloseIdle (c : compositedav.Child).   (* child.CloseIdleConnections() *)

Definition apply_step `{Platform} (a : step) (w : World) : World :=
  match a with
  | SLogf format args => with_effects [ELogf format args] w
  | SNew p u => with_object p u w
  | SNewChild c => with_next (compositedav.ptr c) w
  | SGo p => with_effects [EGo p] w
  | SLock => with_lock true w
  | SUnlock => with_lock false w
  | SSetShares m =>
      with_fs (λ s, {| fileServerAddr := fileServerAddr s; fs_shares := m;
                       children := children s; userServers := userServers s |}) w
  | SSetChildren m =>
      with_fs (λ s, {| fileServerAddr := fileServerAddr s; fs_shares := fs_shares s;
                       children := m; userServers := userServers s |}) w
  | SSetUserServers m =>
      with_fs (λ s, {| fileServerAddr := fileServerAddr s; fs_shares := fs_shares s;
                       children := children s; userServers := m |}) w
  | SStop p =>
      match heap w !! p with
      | Some s =>
          let '(err, s', killed) := userServer_Close s in
          with_effects
            (match killed with Some pid => [EKill pid] | None => [] end ++
             match err with
             | Some e => [ELogf "error closing tailfs user server: %v" [e]]
             | None => []
             end ++ [EStopped p])
            {| fs := fs w; mu_locked := mu_locked w; heap := <[p := s']> (heap w);
               next_loc := next_loc w; effects := effects w |}
      | None => w
      end
  | SCloseIdle c => with_effects [ECloseIdle (compositedav.ptr c)] w
  end.

Definition exec_steps `{Platform} (steps : list step) (w : World) : World :=
  fold_left (λ w a, apply_step a w) steps w.

(** [stopUserServers] and [closeChildren], one step per map entry. *)
Definition stopUserServers (userServers : gmap string loc) : list step :=
  (λ kv, SStop kv.2) <$> map_to_list userServers.

Definition closeChildren (children : gmap string compositedav.Child) : list step :=
  (λ kv, SCloseIdle kv.2) <$> map_to_list children.

(** *** SetShares *)

Definition new_userServer (username executable : string) : userServer :=
  {| shares := []; username := username; executable := executable;
     cmd := None; addr := EmptyString; closed := false |}.

(** One round of the grouping loop.  The map holds pointers in the source
    and the append goes through the pointer; no other alias exists while
    the loop runs, so the map holds the objects here. *)
Definition group_share (executable : string) (userServers : gmap string userServer)
    (share : tailfs.Share) : gmap string userServer :=
  let p := match userServers !! tailfs.As share with
           | Some p => p
           | None => new_userServer (tailfs.As share) executable
           end in
  <[tailfs.As share := append_share share p]> userServers.

Definition group_by_owner (executable : string) (l : list tailfs.Share)
    : gmap string userServer :=
  fold_left (group_share executable) l ∅.

(** The values of a Go map in the order a [range] visits them.  The
    language leaves the order open; the model takes [map_to_list]'s. *)
Definition range_values {V} (m : gmap string V) : list V := (map_to_list m).*2.

Definition buildChild `{Platform} (p : loc) (share : tailfs.Share) : compositedav.Child :=
  {| compositedav.ptr := p;
     compositedav.Name := tailfs.Name share;
     compositedav.BaseURL :=
       "http://" +:+ hex_EncodeToString (tailfs.Name share) +:+ "/" +:+
       url_PathEscape (tailfs.Name share) |}.

(** Addresses [next], [next + 1], ... for the elements of a list. *)
Definition place {A} (next : loc) (l : list A) : list (loc * A) :=
  imap (λ i a, ((next + i)%nat, a)) l.

(** The userServers of a new generation: each owner's server with the
    address it is allocated at. *)
Definition new_servers (next : loc) (executable : string)
    (shares : gmap string tailfs.Share) : list (loc * (string * userServer)) :=
  place next (map_to_list (group_by_owner executable (range_values shares))).

Definition new_userServers (servers : list (loc * (string * userServer)))
    : gmap string loc :=
  list_to_map ((λ x, (x.2.1, x.1)) <$> servers).

Definition new_children `{Platform} (next : loc) (shares : gmap string tailfs.Share)
    : list compositedav.Child :=
  (λ x, buildChild x.1 x.2) <$> place next (range_values shares).

Definition children_map (cs : list compositedav.Child)
    : gmap string compositedav.Child :=
  fold_left (λ m c, <[compositedav.Name c := c]> m) cs ∅.

(** The steps of [SetShares shares] when it starts in world [w].  The
    previous maps are read inside the lock section; only [SetShares] and
    [Close] write them and their callers run them one at a time, so they
    are the maps of [w]. *)
Definition SetShares_steps `{Platform} (shares : gmap string tailfs.Share) (w : World)
    : list step :=
  let servers :=
    if tailfs_AllowShareAs then
      match os_Executable with
      | inl err => inl err
      | inr executable => inr (new_servers (next_loc w) executable shares)
      end
    else inr [] in
  match servers with
  | inl err => [SLogf "can't find executable: %v" [err]]
  | inr servers =>
      let oldUserServers := userServers (fs w) in
      let oldChildren := children (fs w) in
      let userServers := new_userServers servers in
      let cs := new_children (next_loc w + length servers)%nat shares in
      let children := children_map cs in
      ((λ x, SNew x.1 x.2.2) <$> servers) ++
      ((λ x, SGo x.1) <$> servers) ++
      (SNewChild <$> cs) ++
      [SLock;
       SSetShares shares;
       SSetChildren children;
       SSetUserServers userServers;
       SUnlock] ++
      stopUserServers oldUserServers ++
      closeChildren oldChildren
  end.

Definition SetShares `{Platform} (shares : gmap string tailfs.Share) (w : World) : World :=
  exec_steps (SetShares_steps shares w) w.

(** *** Close *)

Definition Close_steps (w : World) : list step :=
  [SLock; SSetUserServers ∅; SSetChildren ∅; SUnlock] ++
  stopUserServers (userServers (fs w)) ++
  closeChildren (children (fs w)).

Definition Close `{Platform} (w : World) : World := exec_steps (Close_steps w) w.

(** *** The dial function of a child's transport *)

(** Connections attempted by one call of the dial function. *)
Inductive connect :=
  | NetDialTcp (addr : string)           (* net.Dial("tcp", addr) *)
  | SafesocketConnect (addr : string).   (* safesocket.Connect(addr) *)

(** An error of the network, returned as it is. *)
Inductive dial_error :=
  | DialRefused (e : error)       (* an error the closure builds *)
  | ConnectFailed (e : string).   (* the error of the connect call *)

(** The result of a connect call, returned as it is. *)
Definition returned (r : string + nat) : dial_error + nat :=
  match r with
  | inl e => inl (ConnectFailed e)
  | inr c => inr c
  end.

(** The address the dial function settles on for a share it found. *)
Definition backend_addr `{Platform} (w : World) (share : tailfs.Share) : string :=
  if negb tailfs_AllowShareAs then fileServerAddr (fs w)
  else
    match userServers (fs w) !! tailfs.As share with
    | Some p =>
        match heap w !! p with
        | Some userServer => addr userServer
        | None => EmptyString
        end
    | None => EmptyString
    end.

(** The closure [Dial] of [buildChild], run in world [w]: the connection
    or error it returns and the connections it attempted. *)
Definition Dial `{Platform} (w : World) (shareAddr : string)
    : (dial_error + nat) * list connect :=
  match net_SplitHostPort shareAddr with
  | None => (inl (DialRefused (ErrParseShareAddr shareAddr)), [])
  | Some (shareNameHex, _) =>
    match hex_DecodeString shareNameHex with
    | None => (inl (DialRefused (ErrDecodeShareName shareNameHex)), [])
    | Some shareName =>
      match fs_shares (fs w) !! shareName with
      | None => (inl (DialRefused (ErrUnknownShare shareName)), [])
      | Some share =>
        let addr := backend_addr w share in
        if decide (addr = EmptyString)
        then (inl (DialRefused (ErrNoAddress shareName)), [])
        else if netip_ParseAddrPort_ok addr
        then (returned (net_Dial_tcp addr), [NetDialTcp addr])
        else (returned (safesocket_Connect addr), [SafesocketConnect addr])
      end
    end
  end.

(** *** ServeHTTPWithPerms *)

Definition writeMethods : gmap string bool :=
  list_to_map
    [("PUT", true); ("POST", true); ("COPY", true); ("LOCK", true);
     ("UNLOCK", true); ("MKCOL", true); ("MOVE", true); ("PROPPATCH", true)].

(** [writeMethods[method]]: a missing key reads as [false]. *)
Definition isWrite (method : string) : bool := default false (writeMethods !! method).

(** What [ServeHTTPWithPerms] does with a request: it answers with
    [http.Error], or it hands the request to a [compositedav.Handler] over
    the children it selected; dialing happens only inside that handler.
    Indexing an empty slice panics. *)
Inductive served :=
  | HttpError (msg : string) (code : Z)
  | Dispatch (children : list compositedav.Child) (r : http.Request)
  | Panic.

(** The children the principal may see, in [range] order. *)
Definition visible_children (permissions : tailfs.Permissions)
    (childrenMap : gmap string compositedav.Child) : list compositedav.Child :=
  (filter (λ kv, tailfs.For permissions kv.1 ≠ tailfs.PermissionNone)
          (map_to_list childrenMap)).*2.

Definition ServeHTTPWithPerms `{Platform} (s : FileSystemForRemote)
    (permissions : tailfs.Permissions) (r : http.Request) : served :=
  let isWrite := isWrite (http.Method r) in
  let dispatch := Dispatch (visible_children permissions (children s)) r in
  if isWrite then
    match shared_CleanAndSplit (http.URL_Path r) with
    | [] => Panic
    | share :: _ =>
        match tailfs.For permissions share with
        | tailfs.PermissionNone => HttpError "not found" http.StatusNotFound
        | tailfs.PermissionReadOnly => HttpError "permission denied" http.StatusForbidden
        | tailfs.PermissionReadWrite => dispatch
        end
    end
  else dispatch.

(** ** Interleaving with the other goroutines *)

(** What goroutines other than the one running [SetShares] or [Close] may
    do to the world in one step.  The three maps are written by those two
    operations only, which their contract serialises; [fileServerAddr] is
    written under [mu], so only while it is free.  Everything else (the
    fields of the userServers, the log) may change. *)
Record interference (w w' : World) : Prop := mkInterference {
  interf_lock : mu_locked w' = mu_locked w;
  interf_shares : fs_shares (fs w') = fs_shares (fs w);
  interf_children : children (fs w') = children (fs w);
  interf_userServers : userServers (fs w') = userServers (fs w);
  interf_addr : mu_locked w = true → fileServerAddr (fs w') = fileServerAddr (fs w);
}.

(** A configuration operation under way: the steps it has taken, the steps
    it has left, and the world. *)
Record config := mkConfig {
  taken : list step;
  todo : list step;
  world : World;
}.

Inductive interleave `{Platform} : config → config → Prop :=
  | own_step a taken todo w :
      interleave (mkConfig taken (a :: todo) w)
                 (mkConfig (taken ++ [a]) todo (apply_step a w))
  | other_step taken todo w w' :
      interference w w' →
      interleave (mkConfig taken todo w) (mkConfig taken todo w').

(** Tearing down: stopping a server or closing a child's connections. *)
Definition is_teardown (a : step) : bool :=
  match a with SStop _ | SCloseIdle _ => true | _ => false end.

Definition teardown_begun (c : config) : bool := existsb is_teardown (taken c).

(** The three maps of a generation. *)
Definition generation (w : World)
    : gmap string tailfs.Share * gmap string compositedav.Child * gmap string loc :=
  (fs_shares (fs w), children (fs w), userServers (fs w)).

(** ** A platform to run the model on *)

(** Plain implementations of the outside functions, for evaluating the
    model on concrete inputs.  The theorems below hold for every
    [Platform]; this one only supplies examples. *)
Module Sample.
Definition is_space (c : ascii) : bool :=
  bool_decide (c ∈ [" "; "009"; "010"; "011"; "012"; "013"]%char).

Fixpoint drop_spaces (l : list ascii) : list ascii :=
  match l with
  | c :: l' => if is_space c then drop_spaces l' else l
  | [] => []
  end.

Definition TrimSpace (s : string) : string :=
  string_of_list_ascii
    (List.rev (drop_spaces (List.rev (drop_spaces (list_ascii_of_string s))))).

Definition hex_val (c : ascii) : option nat :=
  let n := nat_of_ascii c in
  if bool_decide (48 ≤ n ≤ 57)%nat then Some (n - 48)%nat
  else if bool_decide (97 ≤ n ≤ 102)%nat then Some (n - 87)%nat
  else if bool_decide (65 ≤ n ≤ 70)%nat then Some (n - 55)%nat
  else None.

Fixpoint decode (l : list ascii) : option (list ascii) :=
  match l with
  | [] => Some []
  | a :: b :: l' =>
      hi ← hex_val a; lo ← hex_val b; rest ← decode l';
      Some (ascii_of_nat (16 * hi + lo) :: rest)
  | _ => None
  end.

Definition DecodeString (s : string) : option string :=
  string_of_list_ascii <$> decode (list_ascii_of_string s).

Definition hex_digit (n : nat) : ascii :=
  if bool_decide (n < 10)%nat then ascii_of_nat (48 + n) else ascii_of_nat (87 + n).

Definition EncodeToString (s : string) : string :=
  string_of_list_ascii
    (flat_map (λ c, let n := nat_of_ascii c in
                    [hex_digit (n / 16); hex_digit (n mod 16)])
              (list_ascii_of_string s)).

(** Host and port around the last colon; no brackets. *)
Fixpoint split_last_colon (l : list ascii) : option (list ascii * list ascii) :=
  match l with
  | [] => None
  | c :: l' =>
      match split_last_colon l' with
      | Some (h, p) => Some (c :: h, p)
      | None => if bool_decide (c = ":"%char) then Some ([], l') else None
      end
  end.

Definition SplitHostPort (s : string) : option (string * string) :=
  (λ hp, (string_of_list_ascii hp.1, string_of_list_ascii hp.2))
    <$> split_last_colon (list_ascii_of_string s).

Definition is_digit (c : ascii) : bool :=
  bool_decide (48 ≤ nat_of_ascii c ≤ 57)%nat.

(** Dotted digits, a colon, digits. *)
Definition ParseAddrPort_ok (s : string) : bool :=
  match split_last_colon (list_ascii_of_string s) with
  | Some (h, p) =>
      bool_decide (h ≠ []) && bool_decide (p ≠ []) &&
      forallb (λ c, is_digit c || bool_decide (c = "."%char)) h &&
      forallb is_digit p
  | None => false
  end.

(** The segments between slashes, empty ones dropped; one empty segment
    for a path without any. *)
Fixpoint segments (cur : list ascii) (l : list ascii) : list string :=
  let flush := match cur with
               | [] => []
               | _ => [string_of_list_ascii (List.rev cur)]
               end in
  match l with
  | [] => flush
  | c :: l' =>
      if bool_decide (c = "/"%char) then flush ++ segments [] l'
      else segments (c :: cur) l'
  end.

Definition CleanAndSplit (p : string) : list string :=
  match segments [] (list_ascii_of_string p) with
  | [] => [EmptyString]
  | l => l
  end.

(** Every connect call succeeds, no kill fails. *)
Definition platform (allowShareAs : bool) (executable : string + string) : Platform :=
  {| strings_TrimSpace := TrimSpace;
     net_SplitHostPort := SplitHostPort;
     hex_DecodeString := DecodeString;
     hex_EncodeToString := EncodeToString;
     url_PathEscape := λ s, s;
     netip_ParseAddrPort_ok := ParseAddrPort_ok;
     shared_CleanAndSplit := CleanAndSplit;
     tailfs_AllowShareAs := allowShareAs;
     os_Executable := executable;
     Process_Kill := λ _, None;
     net_Dial_tcp := λ _, inr 1%nat;
     safesocket_Connect := λ _, inr 2%nat;
     float64_overflow_int64 := minDuration |}.

Definition tailscaled : string := "/usr/sbin/tailscaled".

Definition A : tailfs.Share :=
  {| tailfs.Name := "A"; tailfs.Path := "/x"; tailfs.As := "alice" |}.
Definition B : tailfs.Share :=
  {| tailfs.Name := "B"; tailfs.Path := "/y"; tailfs.As := "alice" |}.
Definition C : tailfs.Share :=
  {| tailfs.Name := "C"; tailfs.Path := "/z"; tailfs.As := "bob" |}.

Definition world0 : World :=
  {| fs := NewFileSystemForRemote; mu_locked := false; heap := ∅;
     next_loc := 0%nat; effects := [] |}.
End Sample.

Module RouterSample.
Definition P : Platform := Sample.platform true (inr Sample.tailscaled).

Definition childA : compositedav.Child := buildChild (H:=P) 1%nat Sample.A.

Definition fsA : FileSystemForRemote :=
  {| fileServerAddr := EmptyString;
     fs_shares := {[ "A" := Sample.A ]};
     children := {[ "A" := childA ]};
     userServers := {[ "alice" := 0%nat ]} |}.

Definition nobody : tailfs.Permissions := λ _, tailfs.PermissionNone.
Definition reader : tailfs.Permissions := λ _, tailfs.PermissionReadOnly.

Definition PUT : http.Request :=
  {| http.Method := "PUT"; http.URL_Path := "/A/file.txt" |}.
Definition GET : http.Request :=
  {| http.Method := "GET"; http.URL_Path := "/A/file.txt" |}.
End RouterSample.

(** ** Vocabulary of the statements about [SetShares] and [Close] *)

(** The shares of a list that an owner owns, in the order of the list. *)
Definition owned_by (owner : string) (l : list tailfs.Share) : list tailfs.Share :=
  filter (λ sh, tailfs.As sh = owner) l.

(** A userServer as the grouping loop leaves it. *)
Definition serving (owner executable : string) (l : list tailfs.Share) : userServer :=
  {| shares := l; username := owner; executable := executable;
     cmd := None; addr := EmptyString; closed := false |}.

(** The pointers of the installed generation have been handed out. *)
Definition pointers_allocated (w : World) : Prop :=
  ∀ owner p, userServers (fs w) !! owner = Some p → (p < next_loc w)%nat.

(** Steps that write or lock nothing a reader looks at. *)
Definition is_local (a : step) : bool :=
  match a with SLogf _ _ | SNew _ _ | SNewChild _ | SGo _ => true | _ => false end.

(** Writes of the three maps. *)
Definition is_install (a : step) : bool :=
  match a with SSetShares _ | SSetChildren _ | SSetUserServers _ => true | _ => false end.

(** The userServer object a step writes, if any. *)
Definition object_written (a : step) : option loc :=
  match a with SNew p _ | SStop p => Some p | _ => None end.

(** What a reader holding [mu] for reading can see of a swap: the three
    maps, and whether [mu] is held for writing. *)
Definition view (w : World)
    : gmap string tailfs.Share * gmap string compositedav.Child * gmap string loc * bool :=
  (generation w, mu_locked w).

(** The words [run] puts in front of the arguments of the child. *)
Definition launcher (o : RunEnv) (s : userServer) : list string :=
  if canSudo o s then ["sudo"; "-n"; "-u"; username s; executable s]
  else [executable s].

(** A swap of generations: local steps, one lock section of writes, then
    teardown. *)
Definition swap_steps (pre writes post : list step) : list step :=
  pre ++ (SLock :: writes ++ [SUnlock]) ++ post.

(** What may be seen at configuration [c] of an operation that started in
    world [w] and ends in world [final]: once any teardown step has been
    taken the maps are those of [final] and [mu] is free; and whenever
    [mu] is free the maps are all those of [w] or all those of [final]. *)
Definition swap_safe (w final : World) (c : config) : Prop :=
  (teardown_begun c = true →
     mu_locked (world c) = false ∧ generation (world c) = generation final) ∧
  (mu_locked (world c) = false →
     generation (world c) = generation w ∨ generation (world c) = generation final).

(** [SetShares] gets past the lookup of the executable: the share-as
    mechanism is off, or the executable is found. *)
Definition passes_executable_lookup `{Platform} : Prop :=
  tailfs_AllowShareAs = false ∨ ∃ executable, os_Executable = inr executable.

(** The userServers [SetShares] then builds, with their addresses: none
    when the share-as mechanism is off. *)
Definition SetShares_servers `{Platform} (shares : gmap string tailfs.Share) (w : World)
    : list (loc * (string * userServer)) :=
  if tailfs_AllowShareAs then
    match os_Executable with
    | inr executable => new_servers (next_loc w) executable shares
    | inl _ => []
    end
  else [].

(** The steps of [SetShares] before it takes the lock: the new servers
    are allocated, their run loops started, the children built. *)
Definition SetShares_prepare `{Platform} (shares : gmap string tailfs.Share) (w : World)
    : list step :=
  let servers := SetShares_servers shares w in
  ((λ x, SNew x.1 x.2.2) <$> servers) ++
  ((λ x, SGo x.1) <$> servers) ++
  (SNewChild <$> new_children (next_loc w + length servers)%nat shares).

(** The generation [SetShares] has built when it takes the lock. *)
Definition SetShares_generation `{Platform} (shares : gmap string tailfs.Share)
    (w : World)
    : gmap string tailfs.Share * gmap string compositedav.Child * gmap string loc :=
  let servers := SetShares_servers shares w in
  (shares,
   children_map (new_children (next_loc w + length servers)%nat shares),
   new_userServers servers).

(** What may be seen at configuration [c] of an operation that puts the
    generation [new] in the place of the generation [old] and tears down
    the servers [us] and the children [cs]:
    - once any teardown step has been taken [mu] is free and the maps are
      those of [new];
    - whenever [mu] is free the maps are all those of [old] or all those
      of [new];
    - only servers of [us] are stopped and only children of [cs] are
      asked to close their idle connections;
    - when the operation has no step left, [mu] is free, the maps are
      those of [new], and every server of [us] has been stopped and every
      child of [cs] asked to close its idle connections. *)
Definition replaces
    (old new : gmap string tailfs.Share * gmap string compositedav.Child *
               gmap string loc)
    (us : gmap string loc) (cs : gmap string compositedav.Child) (c : config) : Prop :=
  (teardown_begun c = true →
     mu_locked (world c) = false ∧ generation (world c) = new) ∧
  (mu_locked (world c) = false →
     generation (world c) = old ∨ generation (world c) = new) ∧
  (∀ p, SStop p ∈ taken c → ∃ owner, us !! owner = Some p) ∧
  (∀ ch, SCloseIdle ch ∈ taken c → ∃ name, cs !! name = Some ch) ∧
  (todo c = [] →
     mu_locked (world c) = false ∧ generation (world c) = new ∧
     (∀ owner p, us !! owner = Some p → SStop p ∈ taken c) ∧
     (∀ name ch, cs !! name = Some ch → SCloseIdle ch ∈ taken c)).

Module SwapSample.
Definition P : Platform := Sample.platform true (inr Sample.tailscaled).
Definition Poff : Platform := Sample.platform false (inr Sample.tailscaled).
Definition Pnoexe : Platform := Sample.platform true (inl "no such file").

(** Shares A and B of alice, C of bob. *)
Definition abc : gmap string tailfs.Share :=
  <["A" := Sample.A]> (<["B" := Sample.B]> (<["C" := Sample.C]> ∅)).

Definition ab : gmap string tailfs.Share :=
  <["A" := Sample.A]> (<["B" := Sample.B]> ∅).

(** The world after a first [SetShares]. *)
Definition installed : World := SetShares (H:=P) abc Sample.world0.

(** [Close] on it, stopped after the lock section and one teardown
    step. *)
Definition closing : config :=
  {| taken := [] ++ take 5 (Close_steps installed);
     todo := drop 5 (Close_steps installed);
     world := exec_steps (H:=P) (take 5 (Close_steps installed)) installed |}.

(** alice's server has published a TCP address, bob's a socket path. *)
Definition published : World :=
  with_object 1%nat
    (set_addr "/run/tailfs-bob.sock" (serving "bob" Sample.tailscaled [Sample.C]))
    (with_object 0%nat
       (set_addr "127.0.0.1:8080"
          (serving "alice" Sample.tailscaled [Sample.A; Sample.B]))
       installed).

(** An attempt that fails at once. *)
Definition crash : IterEnv :=
  {| close_called := false;
     run_env := {| sudo_probe := λ _ _, true;
                   user_Current := inr {| user.Uid := "1000"; user.Name := "alice" |};
                   StdoutPipe_err := None; StderrPipe_err := None;
                   Start_result := inl "exec format error";
                   first_Scan := ScanEOF;
                   Wait_err := None |};
     run_elapsed := 0; sleep_extra := 0 |}.

(** An attempt whose child runs for a minute before it dies. *)
Definition late_crash : IterEnv :=
  {| close_called := false; run_env := run_env crash;
     run_elapsed := 60000000000; sleep_extra := 0 |}.

(** Nanoseconds from the zero [Time] to a moment in 2024. *)
Definition clock0 : Z := 63850000000 * Second.
End SwapSample.

(** ** Vocabulary of the further statements *)

(** The children started, the pipes closed and the drains started by one
    call of [run], in order. *)
Definition started (evs : list event) : list exec.Cmd :=
  omap (λ e, match e with Started c => Some c | _ => None end) evs.

Definition pipes_closed (evs : list event) : list stream :=
  omap (λ e, match e with PipeClosed f => Some f | _ => None end) evs.

Definition drains (evs : list event) : list stream :=
  omap (λ e, match e with GoDrain f => Some f | _ => None end) evs.

(** [run] gets as far as setting up a command: [sudo] works, or the
    current user is known not to be root. *)
Definition launches (o : RunEnv) (s : userServer) : bool :=
  canSudo o s || match assertNotRoot o with None => true | Some _ => false end.

(** The run loops started, by server. *)
Definition go_effects (es : list effect) : list loc :=
  omap (λ e, match e with EGo p => Some p | _ => None end) es.

(** [run] called on the server at address [p], as the server's run loop
    does from its own goroutine. *)
Definition run_at `{Platform} (o : RunEnv) (p : loc) (w : World) : World :=
  match heap w !! p with
  | Some s =>
      {| fs := fs w; mu_locked := mu_locked w;
         heap := <[p := (run o s).1.2]> (heap w);
         next_loc := next_loc w; effects := effects w |}
  | None => w
  end.

(** The count and the delay of one attempt are within their bounds. *)
Definition attempt_bounded (a : attempt) : Prop :=
  1 ≤ at_failures a ≤ 15 ∧ 2 * Millisecond ≤ at_sleep a ≤ maxSleepTime.

(** The servers whose run loop a list of steps starts. *)
Definition spawned (steps : list step) : list loc :=
  omap (λ a, match a with SGo p => Some p | _ => None end) steps.

Module RunSample.
Definition P : Platform := Sample.platform true (inr Sample.tailscaled).

Definition alice : userServer := serving "alice" Sample.tailscaled [Sample.A; Sample.B].

(** No [sudo]; the current user is alice; the child starts and writes its
    address, then exits. *)
Definition healthy : RunEnv :=
  {| sudo_probe := λ _ _, false;
     user_Current := inr {| user.Uid := "1000"; user.Name := "alice" |};
     StdoutPipe_err := None; StderrPipe_err := None;
     Start_result := inr 7%nat;
     first_Scan := ScanLine " 127.0.0.1:8080 ";
     Wait_err := Some "signal: killed" |}.

(** The same, but the second pipe cannot be made. *)
Definition no_stderr : RunEnv :=
  {| sudo_probe := λ _ _, false;
     user_Current := inr {| user.Uid := "1000"; user.Name := "alice" |};
     StdoutPipe_err := None; StderrPipe_err := Some "too many open files";
     Start_result := inr 7%nat;
     first_Scan := ScanLine " 127.0.0.1:8080 ";
     Wait_err := None |}.

Definition child : exec.Cmd :=
  {| exec.Path := Sample.tailscaled;
     exec.Args := [Sample.tailscaled; "serve-tailfs"; "A"; "/x"; "B"; "/y"];
     exec.Process := Some 7%nat |}.
End RunSample.

Module MoreSample.
(** [Close] is called before this iteration. *)
Definition close_now : IterEnv :=
  {| close_called := true; run_env := RunSample.healthy;
     run_elapsed := 0; sleep_extra := 0 |}.

Definition failing : list IterEnv := replicate 18 SwapSample.crash.

(** The installed world once alice's run loop has started a child and read
    its address. *)
Definition running : World := run_at (H:=RunSample.P) RunSample.healthy 0%nat SwapSample.installed.

Definition writer : tailfs.Permissions := λ _, tailfs.PermissionReadWrite.

(** alice's server after a start that published an address. *)
Definition published_alice : userServer := set_addr "127.0.0.1:8080" RunSample.alice.

(** The child starts, closes its standard output without writing a line
    and exits with status 1. *)
Definition silent : RunEnv :=
  {| sudo_probe := λ _ _, false;
     user_Current := inr {| user.Uid := "1000"; user.Name := "alice" |};
     StdoutPipe_err := None; StderrPipe_err := None;
     Start_result := inr 8%nat;
     first_Scan := ScanEOF;
     Wait_err := Some "exit status 1" |}.


(** The child starts, and reading its standard output fails. *)
Definition unreadable : RunEnv :=
  {| sudo_probe := λ _ _, false;
     user_Current := inr {| user.Uid := "1000"; user.Name := "alice" |};
     StdoutPipe_err := None; StderrPipe_err := None;
     Start_result := inr 8%nat;
     first_Scan := ScanFail "read |0: file already closed";
     Wait_err := None |}.
End MoreSample.

(** * Properties *)

(** ** Starting the child: [run] *)

Section run_facts.
Context `{Platform}.

(** [run] as root without a way to [sudo]. *)
Lemma run_as_root (o : RunEnv) (s : userServer) (u : user.User) :
  canSudo o s = false →
  user_Current o = inr u →
  user.Uid u = "0" →
  run o s = (Some (ErrIsRoot (user.Name u)), s, []).
Proof.
  intros Hsudo Hcur Huid. unfold run, assertNotRoot.
  rewrite Hsudo, Hcur. by rewrite decide_True.
Qed.

(** C1.  When the sudo probe fails and the current user has UID "0", [run]
    returns the "is root" error at once: the userServer is returned as
    it was, so its [addr] is not set, and no effect has happened, so no
    child process was started. *)
Theorem run_root_without_sudo_fails_closed
    (o : RunEnv) (s : userServer) (u : user.User) :
  canSudo o s = false →
  user_Current o = inr u →
  user.Uid u = "0" →
  let '(err, s', evs) := run o s in
  err = Some (ErrIsRoot (user.Name u)) ∧
  s' = s ∧ addr s' = addr s ∧
  evs = [] ∧ ∀ c, Started c ∉ evs.
Proof.
  intros Hsudo Hcur Huid. rewrite (run_as_root o s u) by done.
  split_and!; try done. intros c Hc. by apply elem_of_nil in Hc.
Qed.

(** C4.  The code where a child that has been started ends its standard
    output before it has written a line.  [run] looks at the scanner's
    [Err] only, and the end of the input is no error of the scanner: [run]
    goes on, starts the two drains, writes [addr] with the trimmed empty
    text, whatever address an earlier start had published, and returns what
    [cmd.Wait] returns.  On the path beside it, where the read reports an
    error, [run] returns the "read addr" error, starts no drain and leaves
    [addr] as it was. *)
Theorem run_end_of_output_overwrites_addr (o : RunEnv) (s : userServer) (pid : nat) :
  launches o s = true →
  StdoutPipe_err o = None →
  StderrPipe_err o = None →
  Start_result o = inr pid →
  (first_Scan o = ScanEOF →
     (run o s).1.1 = ErrWait <$> Wait_err o ∧
     addr (run o s).1.2 = strings_TrimSpace EmptyString ∧
     drains (run o s).2 = [Stdout; Stderr]) ∧
  (∀ e, first_Scan o = ScanFail e →
     (run o s).1.1 = Some (ErrReadAddr e) ∧
     addr (run o s).1.2 = addr s ∧
     drains (run o s).2 = []).
Proof.
  intros Hlaunch Hout Herr Hstart. unfold launches in Hlaunch.
  unfold run. destruct (canSudo o s).
  - unfold run_started. rewrite Hout, Herr, Hstart.
    split; [intros Hscan|intros e Hscan]; rewrite Hscan; done.
  - simpl in Hlaunch. destruct (assertNotRoot o); [done|].
    unfold run_started. rewrite Hout, Herr, Hstart.
    split; [intros Hscan|intros e Hscan]; rewrite Hscan; done.
Qed.

Lemma run_started_cmd (o : RunEnv) (c : exec.Cmd) (s : userServer)
    (log : list event) (c' : exec.Cmd) :
  Started c' ∈ (run_started o c s log).2 →
  Started c' ∈ log ∨ exec.Args c' = exec.Args c.
Proof.
  unfold run_started.
  repeat case_match; simpl; rewrite ?elem_of_app, ?elem_of_cons, ?elem_of_nil;
    intros Hin; decompose [or] Hin; simplify_eq/=; auto; done.
Qed.

(** The command of a child [run] starts: the launcher, the sub-command,
    then the name and path of each share of the server. *)
Lemma run_Started_args (o : RunEnv) (s : userServer) (c : exec.Cmd) :
  Started c ∈ (run o s).2 → exec.Args c = launcher o s ++ run_args s.
Proof.
  unfold run, launcher. destruct (canSudo o s).
  - intros Hin. apply run_started_cmd in Hin as [Hin| ->]; [|done].
    apply list_elem_of_singleton in Hin. discriminate.
  - destruct (assertNotRoot o).
    { simpl. intros Hin. by apply elem_of_nil in Hin. }
    intros Hin. apply run_started_cmd in Hin as [Hin| ->]; [|done].
    apply list_elem_of_singleton in Hin. discriminate.
Qed.
(** When [run] gets as far as setting up the command, both pipes are made
    and the start succeeds, it has started one child: the launcher
    followed by the arguments. *)
Lemma run_starts (o : RunEnv) (s : userServer) (pid : nat) :
  launches o s = true →
  StdoutPipe_err o = None →
  StderrPipe_err o = None →
  Start_result o = inr pid →
  started (run o s).2 =
    [{| exec.Path := hd EmptyString (launcher o s);
        exec.Args := launcher o s ++ run_args s;
        exec.Process := Some pid |}].
Proof.
  intros Hlaunch Hout Herr Hstart. unfold launches in Hlaunch.
  unfold run, launcher. destruct (canSudo o s).
  - unfold run_started. rewrite Hout, Herr, Hstart.
    by destruct (scan_Err (first_Scan o)).
  - simpl in Hlaunch. destruct (assertNotRoot o); [done|].
    unfold run_started. rewrite Hout, Herr, Hstart.
    by destruct (scan_Err (first_Scan o)).
Qed.

End run_facts.

(** A server whose elevation probe fails, run by root. *)
Lemma run_root_without_sudo_fails_closed_witness :
  let P := Sample.platform true (inr Sample.tailscaled) in
  let o := {| sudo_probe := λ _ _, false;
              user_Current := inr {| user.Uid := "0"; user.Name := "root" |};
              StdoutPipe_err := None; StderrPipe_err := None;
              Start_result := inr 7%nat;
              first_Scan := ScanLine "127.0.0.1:8080";
              Wait_err := None |} in
  let s := {| shares := [Sample.A]; username := "alice";
              executable := Sample.tailscaled;
              cmd := None; addr := EmptyString; closed := false |} in
  run o s = (Some (ErrIsRoot "root"), s, []).
Proof.
  intros P o s.
  pose proof (run_root_without_sudo_fails_closed (H:=P) o s
                {| user.Uid := "0"; user.Name := "root" |}
                eq_refl eq_refl eq_refl) as Hrun.
  destruct (run o s) as [[err s'] evs].
  destruct Hrun as (-> & -> & _ & -> & _). reflexivity.
Defined.

(** ** The share router: [ServeHTTPWithPerms] *)

Lemma isWrite_methods (method : string) :
  isWrite method = true ↔
  method ∈ ["PUT"; "POST"; "COPY"; "LOCK"; "UNLOCK"; "MKCOL"; "MOVE"; "PROPPATCH"].
Proof.
  unfold isWrite, writeMethods. split.
  - destruct (list_to_map _ !! method) as [b|] eqn:Hm; [|discriminate].
    apply elem_of_list_to_map_2 in Hm. simpl. intros ->.
    repeat (apply elem_of_cons in Hm as [[= ->]|Hm]; [set_solver|]).
    by apply elem_of_nil in Hm.
  - intros Hin.
    repeat (apply elem_of_cons in Hin as [->|Hin]; [reflexivity|]).
    by apply elem_of_nil in Hin.
Qed.

Section router_facts.
Context `{Platform}.

Lemma elem_of_visible_children (permissions : tailfs.Permissions)
    (m : gmap string compositedav.Child) (c : compositedav.Child) :
  c ∈ visible_children permissions m ↔
  ∃ name, m !! name = Some c ∧
          tailfs.For permissions name ≠ tailfs.PermissionNone.
Proof.
  unfold visible_children. rewrite list_elem_of_fmap. split.
  - intros ([name c'] & -> & Hin). apply list_elem_of_filter in Hin as [Hperm Hin].
    apply elem_of_map_to_list in Hin. by exists name.
  - intros (name & Hm & Hperm). exists (name, c). split; [done|].
    apply list_elem_of_filter. split; [done|]. by apply elem_of_map_to_list.
Qed.

(** Two children maps that agree on every name the policy does not answer
    [None] for give the handler the same children. *)
Lemma visible_children_agree (permissions : tailfs.Permissions)
    (m1 m2 : gmap string compositedav.Child) :
  (∀ name, tailfs.For permissions name ≠ tailfs.PermissionNone →
           m1 !! name = m2 !! name) →
  visible_children permissions m1 ≡ₚ visible_children permissions m2.
Proof.
  intros Hagree. unfold visible_children. apply fmap_Permutation.
  apply NoDup_Permutation.
  - apply NoDup_filter, NoDup_map_to_list.
  - apply NoDup_filter, NoDup_map_to_list.
  - intros [name c]. rewrite !list_elem_of_filter, !elem_of_map_to_list. simpl.
    split; intros [Hperm Hm]; (split; [done|]).
    + by rewrite <- Hagree.
    + by rewrite Hagree.
Qed.

Lemma ServeHTTPWithPerms_read (s : FileSystemForRemote)
    (permissions : tailfs.Permissions) (r : http.Request) :
  isWrite (http.Method r) = false →
  ServeHTTPWithPerms s permissions r =
  Dispatch (visible_children permissions (children s)) r.
Proof. unfold ServeHTTPWithPerms. by intros ->. Qed.

(** C2, as the code has it.  When the policy answers [None] for the share
    a request names: a mutating request is answered "not found" (404) by
    [ServeHTTPWithPerms] itself, whatever the share set is; a read
    request is not answered by it but handed to the composed handler,
    over the children the policy does not answer [None] for, which are
    the same whether or not a share of that name exists. *)
Theorem none_permission_hides_share (s : FileSystemForRemote)
    (permissions : tailfs.Permissions) (r : http.Request)
    (share : string) (rest : list string) :
  shared_CleanAndSplit (http.URL_Path r) = share :: rest →
  tailfs.For permissions share = tailfs.PermissionNone →
  (isWrite (http.Method r) = true →
     ∀ s', ServeHTTPWithPerms s' permissions r =
           HttpError "not found" http.StatusNotFound) ∧
  (isWrite (http.Method r) = false →
     ServeHTTPWithPerms s permissions r =
       Dispatch (visible_children permissions (children s)) r ∧
     (∀ c, visible_children permissions (<[share := c]> (children s)) ≡ₚ
           visible_children permissions (children s)) ∧
     visible_children permissions (delete share (children s)) ≡ₚ
     visible_children permissions (children s)).
Proof.
  intros Hsplit Hperm. split.
  - intros Hw s'. unfold ServeHTTPWithPerms.
    by rewrite Hw, Hsplit, Hperm.
  - intros Hr. split; [by apply ServeHTTPWithPerms_read|]. split.
    + intros c. apply visible_children_agree. intros name Hname.
      apply lookup_insert_ne. congruence.
    + apply visible_children_agree. intros name Hname.
      apply lookup_delete_ne. congruence.
Qed.

(** C3.  When the policy answers [ReadOnly] for the share a request
    names: a request with a mutating method is answered "permission
    denied" (403) and nothing is handed to the composed handler, so
    nothing is dialed; a request with a read method is handed to the
    composed handler, with the share's child among the children. *)
Theorem readonly_permission_forbids_writes (s : FileSystemForRemote)
    (permissions : tailfs.Permissions) (r : http.Request)
    (share : string) (rest : list string) :
  shared_CleanAndSplit (http.URL_Path r) = share :: rest →
  tailfs.For permissions share = tailfs.PermissionReadOnly →
  (isWrite (http.Method r) = true →
     ServeHTTPWithPerms s permissions r =
       HttpError "permission denied" http.StatusForbidden ∧
     ∀ cs r', ServeHTTPWithPerms s permissions r ≠ Dispatch cs r') ∧
  (isWrite (http.Method r) = false →
     ∃ cs, ServeHTTPWithPerms s permissions r = Dispatch cs r ∧
           ∀ c, children s !! share = Some c → c ∈ cs).
Proof.
  intros Hsplit Hperm. split.
  - intros Hw. unfold ServeHTTPWithPerms.
    rewrite Hw, Hsplit, Hperm. done.
  - intros Hr. eexists. split; [by apply ServeHTTPWithPerms_read|].
    intros c Hc. apply elem_of_visible_children. exists share.
    split; [done|]. by rewrite Hperm.
Qed.
End router_facts.

Lemma none_permission_hides_share_witness :
  ServeHTTPWithPerms (H:=RouterSample.P) RouterSample.fsA RouterSample.nobody
    RouterSample.PUT = HttpError "not found" 404 ∧
  ServeHTTPWithPerms (H:=RouterSample.P) RouterSample.fsA RouterSample.nobody
    RouterSample.GET = Dispatch [] RouterSample.GET.
Proof.
  destruct (none_permission_hides_share (H:=RouterSample.P) RouterSample.fsA
              RouterSample.nobody RouterSample.PUT "A" ["file.txt"]
              eq_refl eq_refl) as [Hput _].
  destruct (none_permission_hides_share (H:=RouterSample.P) RouterSample.fsA
              RouterSample.nobody RouterSample.GET "A" ["file.txt"]
              eq_refl eq_refl) as [_ Hget].
  split.
  - exact (Hput eq_refl RouterSample.fsA).
  - destruct (Hget eq_refl) as [-> _]. vm_compute. reflexivity.
Defined.

(** C2, as stated, fails for read methods: with the policy answering
    [None] for share "A", a PUT is answered "not found" but a GET of the
    same path is not answered by [ServeHTTPWithPerms]; it is dispatched. *)
Lemma none_permission_read_counterexample :
  tailfs.For RouterSample.nobody "A" = tailfs.PermissionNone ∧
  shared_CleanAndSplit (Platform:=RouterSample.P) (http.URL_Path RouterSample.GET)
    = ["A"; "file.txt"] ∧
  ServeHTTPWithPerms (H:=RouterSample.P) RouterSample.fsA RouterSample.nobody
    RouterSample.PUT = HttpError "not found" http.StatusNotFound ∧
  ServeHTTPWithPerms (H:=RouterSample.P) RouterSample.fsA RouterSample.nobody
    RouterSample.GET ≠ HttpError "not found" http.StatusNotFound.
Proof. split_and!; [reflexivity..|]. vm_compute. discriminate. Qed.

Lemma readonly_permission_forbids_writes_witness :
  ServeHTTPWithPerms (H:=RouterSample.P) RouterSample.fsA RouterSample.reader
    RouterSample.PUT = HttpError "permission denied" 403 ∧
  ∃ cs, ServeHTTPWithPerms (H:=RouterSample.P) RouterSample.fsA RouterSample.reader
          RouterSample.GET = Dispatch cs RouterSample.GET ∧
        RouterSample.childA ∈ cs.
Proof.
  destruct (readonly_permission_forbids_writes (H:=RouterSample.P) RouterSample.fsA
              RouterSample.reader RouterSample.PUT "A" ["file.txt"]
              eq_refl eq_refl) as [Hput _].
  destruct (readonly_permission_forbids_writes (H:=RouterSample.P) RouterSample.fsA
              RouterSample.reader RouterSample.GET "A" ["file.txt"]
              eq_refl eq_refl) as [_ Hget].
  split.
  - exact (proj1 (Hput eq_refl)).
  - destruct (Hget eq_refl) as (cs & Hcs & Hin). exists cs. split; [exact Hcs|].
    apply Hin. reflexivity.
Defined.

(** ** The retry delays of [runLoop] *)

Section backoff_facts.
Context `{Platform}.

Lemma wrap_int64_small (z : Z) : 0 ≤ z < 2 ^ 63 → wrap_int64 z = z.
Proof.
  intros Hz. unfold wrap_int64.
  rewrite Z.mod_small; [lia|].
  change (2 ^ 64) with (2 ^ 63 + 2 ^ 63). lia.
Qed.

Lemma initialSleep_eq : initialSleep = 2 * Millisecond.
Proof. reflexivity. Qed.

Lemma pow2_bounds (x : Z) : 1 ≤ x ≤ 16 → 2 ≤ 2 ^ x ≤ 65536.
Proof.
  intros Hx. split.
  - change 2 with (2 ^ 1) at 1. apply Z.pow_le_mono_r; lia.
  - change 65536 with (2 ^ 16). apply Z.pow_le_mono_r; lia.
Qed.

Lemma sleep_of_count (x : Z) :
  1 ≤ x ≤ 16 →
  wrap_int64 (Duration_of_Pow2 x * Millisecond) = 2 ^ x * Millisecond.
Proof.
  intros Hx. unfold Duration_of_Pow2. rewrite decide_True by lia.
  apply wrap_int64_small. pose proof (pow2_bounds x Hx).
  unfold Millisecond. change (2 ^ 63) with 9223372036854775808. lia.
Qed.

Lemma pow2_pred (x : Z) : 1 ≤ x → 2 ^ (x - 1) * (2 * Millisecond) = 2 ^ x * Millisecond.
Proof.
  intros Hx. replace x with (Z.succ (x - 1)) at 2 by lia.
  rewrite Z.pow_succ_r by lia. lia.
Qed.

(** From 15 failures on the delay is the ceiling. *)
Lemma sleep_capped (x : Z) :
  15 ≤ x → Z.min (2 ^ x * Millisecond) maxSleepTime = maxSleepTime.
Proof.
  intros Hx. apply Z.min_r.
  assert (2 ^ 15 ≤ 2 ^ x) by (apply Z.pow_le_mono_r; lia).
  change (2 ^ 15) with 32768 in *. unfold maxSleepTime, Second, Millisecond. lia.
Qed.

Lemma time_Sub_ge (now last d : Z) :
  d ≤ maxSleepTime → last + d ≤ now → d ≤ time_Sub now last.
Proof.
  intros Hd Hnow. unfold time_Sub, minDuration, maxDuration.
  unfold maxSleepTime, Second, Millisecond in Hd.
  change (2 ^ 63) with 9223372036854775808.
  repeat case_decide; lia.
Qed.

(** One pass through the body of the loop keeps [slept] and backs off. *)
Lemma next_sleep_step (st : backoff) (clock now : Z) :
  slept st clock → clock ≤ now →
  let '(st', sleepTime) := next_sleep st now in
  timeOfLastFailure st' = now ∧
  (∀ clock', now + Z.max 0 sleepTime ≤ clock' → slept st' clock') ∧
  backs_off
    {| at_err := None; at_events := []; at_before := consecutiveFailures st;
       at_gap := time_Sub now (timeOfLastFailure st);
       at_failures := consecutiveFailures st'; at_sleep := sleepTime |}.
Proof.
  intros Hslept Hnow. unfold next_sleep. simpl.
  set (gap := time_Sub now (timeOfLastFailure st)).
  assert (Hcount :
    let n := if decide (gap < maxSleepTime)
             then float64_incr (consecutiveFailures st) else 1 in
    1 ≤ n ≤ 15 ∧ (gap < maxSleepTime → n = consecutiveFailures st + 1)).
  { simpl. destruct (decide (gap < maxSleepTime)) as [Hgap|Hgap]; [|lia].
    unfold float64_incr. destruct Hslept as [H0|[Hcf Hclock]].
    - rewrite H0. rewrite decide_True by done. lia.
    - rewrite decide_True by (change (2 ^ 53) with 9007199254740992; lia).
      split; [|done].
      destruct (decide (consecutiveFailures st = 15)) as [H15|]; [|lia].
      exfalso. rewrite sleep_capped in Hclock by lia.
      pose proof (time_Sub_ge now (timeOfLastFailure st) maxSleepTime).
      fold gap in H0. lia. }
  set (n := if decide (gap < maxSleepTime)
            then float64_incr (consecutiveFailures st) else 1) in *.
  simpl in Hcount. destruct Hcount as [Hn Hincr].
  rewrite sleep_of_count by lia.
  assert (Hsleep :
    (if decide (2 ^ n * Millisecond > maxSleepTime) then maxSleepTime
     else 2 ^ n * Millisecond) = Z.min (2 ^ n * Millisecond) maxSleepTime).
  { case_decide; lia. }
  rewrite Hsleep. clear Hsleep.
  assert (Hpos : 0 < 2 ^ n * Millisecond).
  { pose proof (pow2_bounds n). unfold Millisecond. lia. }
  split; [done|]. split.
  - intros clock' Hclock'. right. simpl. split; [done|].
    unfold maxSleepTime, Second in *. lia.
  - unfold backs_off. simpl. rewrite initialSleep_eq, pow2_pred by lia.
    split_and!; [done| |lia|done].
    intros Hgap. subst n. rewrite decide_False by lia.
    split; [done|]. reflexivity.
Qed.

Lemma backs_off_data (a b : attempt) :
  at_before a = at_before b → at_gap a = at_gap b →
  at_failures a = at_failures b → at_sleep a = at_sleep b →
  backs_off a → backs_off b.
Proof. unfold backs_off. intros -> -> -> ->. done. Qed.

(** The attempts of a loop resumed with locals [st]. *)
Lemma runLoop_from_backs_off (envs : list IterEnv) (st : backoff) (clock : Z)
    (s : userServer) :
  slept st clock →
  let trace := (runLoop_from envs st clock s).2 in
  Forall backs_off trace ∧
  (∀ a, head trace = Some a → at_before a = consecutiveFailures st) ∧
  (∀ i a b, trace !! i = Some a → trace !! S i = Some b →
            at_before b = at_failures a).
Proof.
  revert st clock s. induction envs as [|e envs IH]; intros st clock s Hslept.
  { simpl. split_and!; [constructor|done|]. intros i a b Ha. done. }
  cbn [runLoop_from].
  set (s0 := if close_called e then set_closed true s else s).
  destruct (closed s0).
  { simpl. split_and!; [constructor|done|]. intros i a b Ha. done. }
  destruct (run (run_env e) s0) as [[err s1] evs].
  set (now := clock + Z.of_N (run_elapsed e)).
  pose proof (next_sleep_step st clock now Hslept ltac:(lia)) as Hstep.
  destruct (next_sleep st now) as [st' sleepTime].
  destruct Hstep as (Hlast & Hnext & Hback).
  assert (Hafter : now + Z.max 0 sleepTime ≤
                   now + Z.max 0 sleepTime + Z.of_N (sleep_extra e)) by lia.
  specialize (IH st' (now + Z.max 0 sleepTime + Z.of_N (sleep_extra e)) s1
                (Hnext _ Hafter)).
  destruct (runLoop_from envs st' _ s1) as [s' rest].
  simpl in *. destruct IH as (IHall & IHhead & IHchain).
  split_and!.
  - constructor; [|done]. revert Hback. by apply backs_off_data.
  - by intros a [= <-].
  - intros [|i] a b Ha Hb; simpl in *.
    + injection Ha as <-. simpl. apply IHhead. by destruct rest; simplify_eq/=.
    + by eapply IHchain.
Qed.

Lemma run_closed (o : RunEnv) (s : userServer) : closed (run o s).1.2 = closed s.
Proof.
  unfold run, run_started.
  repeat (case_match; try reflexivity).
Qed.

Lemma runLoop_from_length (envs : list IterEnv) (st : backoff) (clock : Z)
    (s : userServer) :
  closed s = false → Forall (λ e, close_called e = false) envs →
  length (runLoop_from envs st clock s).2 = length envs.
Proof.
  revert st clock s. induction envs as [|e envs IH]; intros st clock s Hs Henvs.
  { done. }
  apply Forall_cons in Henvs as [He Henvs].
  cbn [runLoop_from]. rewrite He, Hs.
  destruct (run (run_env e) s) as [[err s1] evs] eqn:Hrun.
  destruct (next_sleep st _) as [st' sleepTime].
  specialize (IH st' (clock + Z.of_N (run_elapsed e) + Z.max 0 sleepTime +
                      Z.of_N (sleep_extra e)) s1).
  destruct (runLoop_from envs st' _ s1) as [s' rest].
  simpl in *. f_equal. apply IH; [|done].
  pose proof (run_closed (run_env e) s) as Hc. rewrite Hrun in Hc. simpl in Hc. congruence.
Qed.

(** A loop run by root without a way to [sudo] never starts a child and
    never writes [addr], however often it retries. *)
Lemma runLoop_from_as_root (envs : list IterEnv) (st : backoff) (clock : Z)
    (s : userServer) :
  Forall (λ e, sudo_probe (run_env e) (username s) (executable s) = false ∧
               ∃ u, user_Current (run_env e) = inr u ∧ user.Uid u = "0") envs →
  addr (runLoop_from envs st clock s).1 = addr s ∧
  cmd (runLoop_from envs st clock s).1 = cmd s ∧
  Forall (λ a, at_events a = []) (runLoop_from envs st clock s).2.
Proof.
  revert st clock s. induction envs as [|e envs IH]; intros st clock s Henvs.
  { by split_and!. }
  apply Forall_cons in Henvs as [(Hsudo & u & Hcur & Huid) Henvs].
  cbn [runLoop_from].
  set (s0 := if close_called e then set_closed true s else s).
  assert (Hs0 : username s0 = username s ∧ executable s0 = executable s ∧
                addr s0 = addr s ∧ cmd s0 = cmd s).
  { unfold s0. by destruct (close_called e). }
  destruct Hs0 as (Hname & Hexe & Haddr & Hcmd).
  destruct (closed s0); [by split_and!|].
  rewrite (run_as_root (run_env e) s0 u); [|by unfold canSudo; rewrite Hname, Hexe|done..].
  destruct (next_sleep st _) as [st' sleepTime].
  specialize (IH st' (clock + Z.of_N (run_elapsed e) + Z.max 0 sleepTime +
                      Z.of_N (sleep_extra e)) s0).
  destruct (runLoop_from envs st' _ s0) as [s' rest]. simpl in *.
  destruct IH as (IHaddr & IHcmd & IHall); [by rewrite Hname, Hexe|].
  split_and!; [congruence|congruence|by constructor].
Qed.

(** C5.  The attempts of [runLoop], for whatever [run] returns and
    however long it and the sleeps take: the first failure counts 1 and
    is followed by the initial delay, 2 ms; each later attempt carries
    the count on from the one before it, raising it by one when less
    than the 30 s ceiling has passed since the previous failure and
    starting again at 1, with the initial delay, when the ceiling or
    more has; and each delay is the initial delay doubled once per
    counted failure beyond the first, capped at the ceiling.  A loop that
    is not closed makes one attempt per iteration.  The clock of the
    model advances by at least the delay at each sleep, as [time.Sleep]
    promises. *)
Theorem runLoop_backs_off (envs : list IterEnv) (clock : Z) (s : userServer) :
  let trace := (runLoop envs clock s).2 in
  Forall backs_off trace ∧
  (∀ a, head trace = Some a → at_failures a = 1 ∧ at_sleep a = initialSleep) ∧
  (∀ i a b, trace !! i = Some a → trace !! S i = Some b →
            at_before b = at_failures a) ∧
  initialSleep = 2 * Millisecond ∧ maxSleepTime = 30 * Second ∧
  (closed s = false → Forall (λ e, close_called e = false) envs →
   length trace = length envs).
Proof.
  unfold runLoop.
  destruct (runLoop_from_backs_off envs backoff_init clock s) as (Hall & Hhead & Hchain).
  { by left. }
  split_and!; [done| |done|reflexivity|reflexivity|apply runLoop_from_length].
  intros a Ha. specialize (Hhead a Ha).
  assert (Hin : a ∈ (runLoop_from envs backoff_init clock s).2).
  { destruct (runLoop_from envs backoff_init clock s).2; simplify_eq/=. left. }
  rewrite Forall_forall in Hall. destruct (Hall a Hin) as (Hlt & Hgt & Hpos & Hsleep).
  simpl in Hhead.
  assert (at_failures a = 1) as Hone.
  { destruct (decide (at_gap a < maxSleepTime)) as [Hgap|Hgap].
    - rewrite (Hlt Hgap), Hhead. done.
    - apply Hgt. lia. }
  split; [done|]. rewrite Hsleep, Hone. reflexivity.
Qed.
End backoff_facts.

(** ** Grouping the shares by owner *)

Section grouping_facts.
Lemma owned_by_none (owner : string) (l : list tailfs.Share) :
  owner ∉ tailfs.As <$> l → owned_by owner l = [].
Proof.
  intros Hnot. unfold owned_by. induction l as [|sh l IH]; [done|].
  rewrite fmap_cons, not_elem_of_cons in Hnot. destruct Hnot as [Hne Hnot].
  rewrite filter_cons_False by congruence. by apply IH.
Qed.

Lemma group_by_owner_snoc (executable : string) (l : list tailfs.Share)
    (sh : tailfs.Share) :
  group_by_owner executable (l ++ [sh]) =
  group_share executable (group_by_owner executable l) sh.
Proof. unfold group_by_owner. by rewrite fold_left_app. Qed.

(** The grouping loop leaves one entry per owner that occurs, holding the
    owner's shares in the order the loop met them. *)
Lemma group_by_owner_lookup (executable : string) (l : list tailfs.Share)
    (owner : string) :
  group_by_owner executable l !! owner =
  if decide (owner ∈ tailfs.As <$> l)
  then Some (serving owner executable (owned_by owner l))
  else None.
Proof.
  induction l as [|sh l IH] using rev_ind.
  { rewrite decide_False by apply not_elem_of_nil. apply lookup_empty. }
  rewrite group_by_owner_snoc. unfold group_share.
  rewrite fmap_app. unfold owned_by. rewrite filter_app. fold (owned_by owner l).
  destruct (decide (tailfs.As sh = owner)) as [<-|Hne].
  - rewrite lookup_insert_eq, IH.
    assert (Hlast : tailfs.As sh ∈ (tailfs.As <$> l) ++ (tailfs.As <$> [sh])).
    { apply elem_of_app. right. apply list_elem_of_singleton. done. }
    rewrite (decide_True _ _ Hlast).
    rewrite filter_cons_True by done. rewrite filter_nil.
    case_decide as Hin; [done|]. by rewrite owned_by_none.
  - rewrite lookup_insert_ne, IH by done.
    rewrite filter_cons_False by done. rewrite filter_nil, app_nil_r.
    apply decide_ext. rewrite elem_of_app, list_fmap_singleton, list_elem_of_singleton.
    split; [by left|]. intros [Hin|Heq]; [done|congruence].
Qed.
End grouping_facts.

(** ** Running steps *)

Section exec_facts.
Context `{Platform}.

Lemma exec_steps_app (l1 l2 : list step) (w : World) :
  exec_steps (l1 ++ l2) w = exec_steps l2 (exec_steps l1 w).
Proof. apply fold_left_app. Qed.

Lemma exec_steps_cons (a : step) (l : list step) (w : World) :
  exec_steps (a :: l) w = exec_steps l (apply_step a w).
Proof. reflexivity. Qed.

Lemma exec_steps_snoc (l : list step) (a : step) (w : World) :
  exec_steps (l ++ [a]) w = apply_step a (exec_steps l w).
Proof. by rewrite exec_steps_app. Qed.

(** A step acts on the view through the view alone. *)
Lemma apply_step_view (a : step) (w1 w2 : World) :
  view w1 = view w2 → view (apply_step a w1) = view (apply_step a w2).
Proof.
  unfold view, generation. intros [= Hs Hc Hu Hl].
  destruct a; simpl; try congruence.
  destruct (heap w1 !! p), (heap w2 !! p); simpl;
    repeat (destruct (userServer_Close _) as [[??]?]); simpl; congruence.
Qed.

Lemma apply_step_view_unchanged (a : step) (w : World) :
  is_local a || is_teardown a = true → view (apply_step a w) = view w.
Proof.
  destruct a; try discriminate; intros _; try reflexivity.
  simpl. destruct (heap w !! p); [|done].
  by destruct (userServer_Close _) as [[??]?].
Qed.

Lemma exec_steps_view_unchanged (l : list step) (w : World) :
  Forall (λ a, is_local a || is_teardown a = true) l →
  view (exec_steps l w) = view w.
Proof.
  revert w. induction l as [|a l IH]; intros w Hl; [done|].
  apply Forall_cons in Hl as [Ha Hl].
  simpl. rewrite (IH _ Hl). by apply apply_step_view_unchanged.
Qed.

Lemma exec_steps_view (l : list step) (w1 w2 : World) :
  view w1 = view w2 → view (exec_steps l w1) = view (exec_steps l w2).
Proof.
  revert w1 w2. induction l as [|a l IH]; intros w1 w2 Hv; [done|].
  simpl. apply IH. by apply apply_step_view.
Qed.

Lemma apply_step_heap_other (a : step) (w : World) (p : loc) :
  object_written a ≠ Some p → heap (apply_step a w) !! p = heap w !! p.
Proof.
  destruct a; simpl; intros Hp; try reflexivity.
  - apply lookup_insert_ne. congruence.
  - destruct (heap w !! p0) eqn:Hq; [|done].
    destruct (userServer_Close _) as [[??]?]. simpl.
    apply lookup_insert_ne. congruence.
Qed.

Lemma exec_steps_heap_other (l : list step) (w : World) (p : loc) :
  Forall (λ a, object_written a ≠ Some p) l →
  heap (exec_steps l w) !! p = heap w !! p.
Proof.
  revert w. induction l as [|a l IH]; intros w Hl; [done|].
  apply Forall_cons in Hl as [Ha Hl]. simpl.
  rewrite (IH _ Hl). by apply apply_step_heap_other.
Qed.

Lemma apply_step_next_loc (a : step) (w : World) :
  (next_loc w ≤ next_loc (apply_step a w))%nat.
Proof.
  destruct a; simpl; try lia.
  destruct (heap w !! p); [|lia]. destruct (userServer_Close _) as [[??]?]. simpl. lia.
Qed.

Lemma exec_steps_next_loc (l : list step) (w : World) :
  (next_loc w ≤ next_loc (exec_steps l w))%nat.
Proof.
  revert w. induction l as [|a l IH]; intros w; [done|].
  simpl. etrans; [apply (apply_step_next_loc a)|apply IH].
Qed.

(** The objects the grouping loop built are in the heap once their
    [SNew] steps have run. *)
Lemma exec_new_servers (servers : list (loc * (string * userServer))) (w : World)
    (p : loc) (x : string * userServer) :
  NoDup servers.*1 → (p, x) ∈ servers →
  let w' := exec_steps ((λ x, SNew x.1 x.2.2) <$> servers) w in
  heap w' !! p = Some x.2 ∧ (p < next_loc w')%nat.
Proof.
  revert w. induction servers as [|[q y] servers IH]; intros w Hnd Hin.
  { by apply elem_of_nil in Hin. }
  rewrite fmap_cons in Hnd. apply NoDup_cons in Hnd as [Hq Hnd].
  apply elem_of_cons in Hin as [[= -> ->]|Hin].
  - rewrite fmap_cons, exec_steps_cons. cbn zeta. split.
    + rewrite exec_steps_heap_other.
      * simpl. apply lookup_insert_eq.
      * apply Forall_fmap, Forall_forall. intros [q' y'] Hin'. simpl.
        intros [= ->]. apply Hq. apply list_elem_of_fmap. by exists (q, y').
    + eapply Nat.lt_le_trans; [|apply exec_steps_next_loc]. simpl. lia.
  - rewrite fmap_cons, exec_steps_cons. apply (IH _ Hnd Hin).
Qed.
End exec_facts.

(** ** [SetShares] *)

Section SetShares_facts.
Context `{Platform}.

Lemma place_fst {A} (next : loc) (l : list A) :
  (place next l).*1 = seq next (length l).
Proof.
  unfold place. apply list_eq. intros i.
  rewrite list_lookup_fmap, list_lookup_imap.
  destruct (l !! i) as [a|] eqn:Hi; simpl.
  - symmetry. apply lookup_seq. split; [done|]. by eapply lookup_lt_Some.
  - symmetry. apply lookup_seq_ge. by apply lookup_ge_None.
Qed.

Lemma place_snd {A} (next : loc) (l : list A) : (place next l).*2 = l.
Proof.
  unfold place. apply list_eq. intros i.
  rewrite list_lookup_fmap, list_lookup_imap. by destruct (l !! i).
Qed.

Lemma elem_of_place {A} (next : loc) (l : list A) (p : loc) (a : A) :
  (p, a) ∈ place next l → (next ≤ p)%nat ∧ a ∈ l.
Proof.
  unfold place. intros Hin. apply elem_of_lookup_imap in Hin as (i & a' & [= -> ->] & Hi).
  split; [lia|]. by eapply list_elem_of_lookup_2.
Qed.

Lemma NoDup_place_fst {A} (next : loc) (l : list A) : NoDup (place next l).*1.
Proof. rewrite place_fst. apply NoDup_seq. Qed.

(** The owners of the new servers are the keys of the grouping, each
    once. *)
Lemma new_userServers_lookup (next : loc) (executable : string)
    (shares : gmap string tailfs.Share) (owner : string) (p : loc) :
  let servers := new_servers next executable shares in
  new_userServers servers !! owner = Some p ↔
  ∃ u, (p, (owner, u)) ∈ servers.
Proof.
  intros servers. unfold new_userServers.
  rewrite <- elem_of_list_to_map.
  - rewrite list_elem_of_fmap. split.
    + intros ([q [o u]] & [= -> ->] & Hin). by exists u.
    + intros [u Hin]. by exists (p, (owner, u)).
  - rewrite <- list_fmap_compose.
    assert (Hkeys : (fst ∘ (λ x : loc * (string * userServer), (x.2.1, x.1))) <$> servers
                    = (servers.*2).*1).
    { by rewrite <- list_fmap_compose. }
    rewrite Hkeys. unfold servers, new_servers. rewrite place_snd.
    apply NoDup_fst_map_to_list.
Qed.
Lemma elem_of_range_values {V} (m : gmap string V) (v : V) :
  v ∈ range_values m ↔ ∃ name, m !! name = Some v.
Proof.
  unfold range_values. rewrite list_elem_of_fmap. split.
  - intros ([name v'] & -> & Hin). exists name. by apply elem_of_map_to_list.
  - intros [name Hm]. exists (name, v). split; [done|]. by apply elem_of_map_to_list.
Qed.

Lemma elem_of_owned_by (owner : string) (l : list tailfs.Share) (sh : tailfs.Share) :
  sh ∈ owned_by owner l ↔ sh ∈ l ∧ tailfs.As sh = owner.
Proof. unfold owned_by. rewrite list_elem_of_filter. tauto. Qed.

(** A new server sits at a fresh address and is what the grouping loop
    built for its owner. *)
Lemma elem_of_new_servers (next : loc) (executable : string)
    (m : gmap string tailfs.Share) (p : loc) (owner : string) (u : userServer) :
  (p, (owner, u)) ∈ new_servers next executable m →
  (next ≤ p)%nat ∧ owner ∈ tailfs.As <$> range_values m ∧
  u = serving owner executable (owned_by owner (range_values m)).
Proof.
  unfold new_servers. intros Hin. apply elem_of_place in Hin as [Hp Hin].
  split; [done|]. apply elem_of_map_to_list in Hin.
  rewrite group_by_owner_lookup in Hin. case_decide; by simplify_eq.
Qed.

Lemma new_servers_owner (next : loc) (executable : string)
    (m : gmap string tailfs.Share) (owner : string) :
  owner ∈ tailfs.As <$> range_values m →
  ∃ p u, (p, (owner, u)) ∈ new_servers next executable m.
Proof.
  intros Hin. unfold new_servers, place.
  pose proof (group_by_owner_lookup executable (range_values m) owner) as Hg.
  rewrite decide_True in Hg by done.
  apply elem_of_map_to_list, list_elem_of_lookup in Hg as [i Hi].
  eexists _, _.
  exact (elem_of_lookup_imap_2 (λ j a, ((next + j)%nat, a)) _ _ i Hi).
Qed.

Lemma new_servers_functional (next : loc) (executable : string)
    (m : gmap string tailfs.Share) (p : loc) (x y : string * userServer) :
  (p, x) ∈ new_servers next executable m →
  (p, y) ∈ new_servers next executable m → x = y.
Proof.
  intros Hx Hy.
  pose proof (NoDup_place_fst next
                (map_to_list (group_by_owner executable (range_values m)))) as Hnd.
  apply (elem_of_list_to_map_1 (M:=gmap loc) _ _ _ Hnd) in Hx.
  apply (elem_of_list_to_map_1 (M:=gmap loc) _ _ _ Hnd) in Hy.
  unfold new_servers in *. congruence.
Qed.

Lemma teardown_steps (us : gmap string loc) (cs : gmap string compositedav.Child) :
  Forall (λ a, is_teardown a = true) (stopUserServers us ++ closeChildren cs).
Proof.
  apply Forall_app. split; apply Forall_fmap, Forall_forall; by intros.
Qed.

(** The steps of [SetShares] when the share-as mechanism is on and the
    executable is found: allocation and start of the new servers and
    building of the children, the lock section, the teardown. *)
Lemma SetShares_steps_enabled (shares : gmap string tailfs.Share) (w : World)
    (executable : string) :
  tailfs_AllowShareAs = true → os_Executable = inr executable →
  let servers := new_servers (next_loc w) executable shares in
  let cs := new_children (next_loc w + length servers)%nat shares in
  SetShares_steps shares w =
    (((λ x, SNew x.1 x.2.2) <$> servers) ++
     (((λ x, SGo x.1) <$> servers) ++ (SNewChild <$> cs))) ++
    [SLock; SSetShares shares; SSetChildren (children_map cs);
     SSetUserServers (new_userServers servers); SUnlock] ++
    (stopUserServers (userServers (fs w)) ++ closeChildren (children (fs w))).
Proof.
  intros Hallow Hexe. unfold SetShares_steps. rewrite Hallow, Hexe.
  cbn zeta. by rewrite <- !app_assoc.
Qed.

(** What [SetShares] installs when the share-as mechanism is on and the
    executable is found. *)
Lemma SetShares_view_enabled (shareSet : gmap string tailfs.Share) (w : World)
    (executable : string) :
  tailfs_AllowShareAs = true → os_Executable = inr executable →
  let servers := new_servers (next_loc w) executable shareSet in
  view (SetShares shareSet w) =
    (shareSet,
     children_map (new_children (next_loc w + length servers)%nat shareSet),
     new_userServers servers, false).
Proof.
  intros Hallow Hexe servers. unfold SetShares.
  rewrite (SetShares_steps_enabled _ _ _ Hallow Hexe).
  rewrite exec_steps_app, exec_steps_app.
  rewrite exec_steps_view_unchanged; [reflexivity|].
  eapply Forall_impl; [apply teardown_steps|]. simpl. intros a ->. apply orb_true_r.
Qed.

(** What [SetShares] installs when the share-as mechanism is off: no
    userServers at all. *)
Lemma SetShares_view_disabled (shareSet : gmap string tailfs.Share) (w : World) :
  tailfs_AllowShareAs = false →
  view (SetShares shareSet w) =
    (shareSet, children_map (new_children (next_loc w + 0)%nat shareSet), ∅, false).
Proof.
  intros Hallow. unfold SetShares, SetShares_steps. rewrite Hallow. cbn zeta.
  cbn [fmap list_fmap app length].
  rewrite exec_steps_app.
  change (?a :: ?b :: ?c :: ?d :: ?e :: ?post) with ([a; b; c; d; e] ++ post).
  rewrite exec_steps_app.
  rewrite exec_steps_view_unchanged; [reflexivity|].
  eapply Forall_impl; [apply teardown_steps|]. simpl. intros a ->. apply orb_true_r.
Qed.

(** The new servers are in the heap of the world [SetShares] leaves, at
    addresses that have been handed out. *)
Lemma SetShares_heap_enabled (shareSet : gmap string tailfs.Share) (w : World)
    (executable : string) (p : loc) (x : string * userServer) :
  tailfs_AllowShareAs = true → os_Executable = inr executable →
  pointers_allocated w →
  (p, x) ∈ new_servers (next_loc w) executable shareSet →
  heap (SetShares shareSet w) !! p = Some x.2 ∧
  (p < next_loc (SetShares shareSet w))%nat.
Proof.
  intros Hallow Hexe Hwf Hin. unfold SetShares.
  rewrite (SetShares_steps_enabled _ _ _ Hallow Hexe).
  rewrite <- app_assoc, exec_steps_app.
  set (servers := new_servers (next_loc w) executable shareSet) in *.
  destruct (exec_new_servers servers w p x) as [Hp Hnext]; [apply NoDup_place_fst|done|].
  split.
  - rewrite exec_steps_heap_other; [done|].
    destruct x as [owner u]. apply elem_of_new_servers in Hin as (Hle & _ & _).
    rewrite !Forall_app. split_and!.
    + apply Forall_fmap, Forall_forall. by intros.
    + apply Forall_fmap, Forall_forall. by intros.
    + repeat constructor; done.
    + apply Forall_fmap, Forall_forall. intros [o q] Hq. simpl.
      apply elem_of_map_to_list, Hwf in Hq. intros [= ->]. lia.
    + apply Forall_fmap, Forall_forall. by intros.
  - eapply Nat.lt_le_trans; [exact Hnext|apply exec_steps_next_loc].
Qed.

(** [SetShares] keeps the pointers of the installed generation among the
    addresses handed out. *)
Lemma SetShares_pointers_allocated (shareSet : gmap string tailfs.Share) (w : World) :
  pointers_allocated w → pointers_allocated (SetShares shareSet w).
Proof.
  intros Hwf owner p.
  destruct tailfs_AllowShareAs eqn:Hallow; [destruct os_Executable as [err|executable] eqn:Hexe|].
  - unfold SetShares, SetShares_steps. rewrite Hallow, Hexe. apply Hwf.
  - pose proof (SetShares_view_enabled shareSet w executable Hallow Hexe) as Hview.
    injection Hview as _ _ Hus _. rewrite Hus. intros Hp.
    apply new_userServers_lookup in Hp as [u Hin].
    by apply (SetShares_heap_enabled shareSet w executable p (owner, u)).
  - pose proof (SetShares_view_disabled shareSet w Hallow) as Hview.
    injection Hview as _ _ Hus _. by rewrite Hus, lookup_empty.
Qed.

(** Whatever order the grouping loop meets the shares in, it leaves the
    same owners, and each owner's server holds the same shares, up to
    their order. *)
Lemma group_by_owner_any_order (exe : string) (l l' : list tailfs.Share)
    (owner : string) :
  l ≡ₚ l' →
  match group_by_owner exe l !! owner with
  | Some u =>
      username u = owner ∧ executable u = exe ∧
      shares u ≡ₚ owned_by owner l' ∧ owner ∈ tailfs.As <$> l'
  | None => owner ∉ tailfs.As <$> l'
  end.
Proof.
  intros Hperm. rewrite group_by_owner_lookup. case_decide as Hin.
  - split_and!; [done|done| |by rewrite <- Hperm].
    simpl. unfold owned_by. by rewrite Hperm.
  - by rewrite <- Hperm.
Qed.

(** C7, as the code has it.  With the share-as mechanism on and the
    executable found, [SetShares] installs a userServers map with an
    entry for exactly the owners that occur in the share set; different
    owners have different servers; [SetShares] starts the run loop of
    each of them.  The server of an owner is a new one, of that owner and
    the executable, and its shares are the shares of that owner in the
    share set, each as often as the share set holds it, in some order.  A
    child of that server is invoked with the launcher, the sub-command
    and then the name and the path of each share of the server's list, in
    the order of that list; and when [run] gets as far as the start and
    the start succeeds, such a child is what it has started, once.  None
    of this depends on the order in which the grouping loop visits the
    share set. *)
Theorem SetShares_groups_shares_by_owner (shareSet : gmap string tailfs.Share)
    (w : World) (exe : string) :
  tailfs_AllowShareAs = true → os_Executable = inr exe →
  pointers_allocated w →
  let w' := SetShares shareSet w in
  let pairs := flat_map (λ sh, [tailfs.Name sh; tailfs.Path sh]) in
  (∀ owner, is_Some (userServers (fs w') !! owner) ↔
            ∃ name sh, shareSet !! name = Some sh ∧ tailfs.As sh = owner) ∧
  (∀ o1 o2 p, userServers (fs w') !! o1 = Some p →
              userServers (fs w') !! o2 = Some p → o1 = o2) ∧
  (∀ owner p, userServers (fs w') !! owner = Some p →
     SGo p ∈ SetShares_steps shareSet w ∧
     ∃ u, heap w' !! p = Some u ∧
          username u = owner ∧ executable u = exe ∧
          cmd u = None ∧ addr u = EmptyString ∧ closed u = false ∧
          shares u ≡ₚ owned_by owner (range_values shareSet) ∧
          (∀ sh, sh ∈ shares u ↔
                 (∃ name, shareSet !! name = Some sh) ∧ tailfs.As sh = owner) ∧
          (∀ o c, Started c ∈ (run o u).2 →
                  exec.Args c = launcher o u ++ "serve-tailfs" :: pairs (shares u)) ∧
          (∀ o pid, launches o u = true →
                    StdoutPipe_err o = None → StderrPipe_err o = None →
                    Start_result o = inr pid →
                    started (run o u).2 =
                      [{| exec.Path := hd EmptyString (launcher o u);
                          exec.Args :=
                            launcher o u ++ "serve-tailfs" :: pairs (shares u);
                          exec.Process := Some pid |}])) ∧
  (∀ l owner, l ≡ₚ range_values shareSet →
     match group_by_owner exe l !! owner with
     | Some u =>
         username u = owner ∧ executable u = exe ∧
         shares u ≡ₚ owned_by owner (range_values shareSet) ∧
         ∃ name sh, shareSet !! name = Some sh ∧ tailfs.As sh = owner
     | None => ¬ ∃ name sh, shareSet !! name = Some sh ∧ tailfs.As sh = owner
     end).
Proof.
  intros Hallow Hexe Hwf w' pairs. subst w'.
  pose proof (SetShares_view_enabled shareSet w exe Hallow Hexe) as Hview.
  injection Hview as Hsh Hch Hus Hlk.
  set (servers := new_servers (next_loc w) exe shareSet) in *.
  assert (Hheap : ∀ p x, (p, x) ∈ servers →
                         heap (SetShares shareSet w) !! p = Some x.2).
  { intros p x Hin.
    by apply (SetShares_heap_enabled shareSet w exe p x). }
  assert (Howner : ∀ owner, owner ∈ tailfs.As <$> range_values shareSet ↔
                            ∃ name sh, shareSet !! name = Some sh ∧ tailfs.As sh = owner).
  { intros owner. rewrite list_elem_of_fmap. split.
    - intros (sh & -> & Hin). apply elem_of_range_values in Hin as [name Hname].
      by exists name, sh.
    - intros (name & sh & Hname & <-). exists sh. split; [done|].
      apply elem_of_range_values. by exists name. }
  split_and!.
  - intros owner. rewrite Hus, <- Howner. split.
    + intros [p Hp]. apply new_userServers_lookup in Hp as [u Hin].
      by apply elem_of_new_servers in Hin as (_ & Hin & _).
    + intros Hin.
      destruct (new_servers_owner (next_loc w) exe shareSet owner Hin)
        as (p & u & Hin').
      exists p. apply new_userServers_lookup. by exists u.
  - intros o1 o2 p. rewrite Hus. intros H1 H2.
    apply new_userServers_lookup in H1 as [u1 H1].
    apply new_userServers_lookup in H2 as [u2 H2].
    by pose proof (new_servers_functional _ _ _ _ _ _ H1 H2) as [= -> _].
  - intros owner p. rewrite Hus. intros Hp.
    apply new_userServers_lookup in Hp as [u Hin]. split.
    { rewrite (SetShares_steps_enabled _ _ _ Hallow Hexe).
      rewrite !elem_of_app. left; right; left.
      apply list_elem_of_fmap. by exists (p, (owner, u)). }
    exists u. pose proof (Hheap _ _ Hin) as Hu.
    apply elem_of_new_servers in Hin as (_ & _ & ->).
    split_and!; try done.
    + intros sh. simpl. rewrite elem_of_owned_by, elem_of_range_values. done.
    + intros o c. apply run_Started_args.
    + intros o pid. apply run_starts.
  - intros l owner Hperm.
    pose proof (group_by_owner_any_order exe l (range_values shareSet) owner Hperm)
      as Hg.
    destruct (group_by_owner exe l !! owner) as [u|].
    + destruct Hg as (? & ? & ? & Hin). by apply Howner in Hin.
    + by rewrite <- Howner.
Qed.

(** C10.  With the share-as mechanism on and the executable not found,
    [SetShares] only logs: the world it leaves differs from the one it
    started in by that log line alone, so the three maps and every
    userServer are as before, and no server was stopped and no child
    was asked to close its idle connections. *)
Theorem SetShares_without_executable (shareSet : gmap string tailfs.Share)
    (w : World) (err : string) :
  tailfs_AllowShareAs = true → os_Executable = inl err →
  let w' := SetShares shareSet w in
  w' = with_effects [ELogf "can't find executable: %v" [err]] w ∧
  fs w' = fs w ∧ heap w' = heap w ∧ mu_locked w' = mu_locked w ∧
  Forall (λ a, is_teardown a = false) (SetShares_steps shareSet w) ∧
  ∀ e, e ∈ effects w' → e ∉ effects w →
       e = ELogf "can't find executable: %v" [err].
Proof.
  intros Hallow Hexe. unfold SetShares, SetShares_steps. rewrite Hallow, Hexe.
  simpl. split_and!; try done.
  - by repeat constructor.
  - intros e. rewrite elem_of_app, list_elem_of_singleton. tauto.
Qed.
End SetShares_facts.

(** ** Installation before teardown *)

Section swap_facts.
Context `{Platform}.

Lemma interference_view (w w' : World) : interference w w' → view w' = view w.
Proof. intros [Hl Hs Hc Hu _]. unfold view, generation. congruence. Qed.

(** The view is a function of the steps the operation has taken, whatever
    the other goroutines do in between. *)
Lemma interleave_tracks (w0 : World) (c0 c : config) :
  rtc interleave c0 c →
  view (world c0) = view (exec_steps (taken c0) w0) →
  taken c ++ todo c = taken c0 ++ todo c0 ∧
  view (world c) = view (exec_steps (taken c) w0).
Proof.
  induction 1 as [c|c1 c2 c3 Hstep _ IH]; intros Hv; [done|].
  destruct Hstep as [a taken todo w|taken todo w w' Hint]; simpl in *.
  - destruct IH as [IH1 IH2].
    + rewrite exec_steps_snoc. by apply apply_step_view.
    + split; [|done]. by rewrite IH1, <- app_assoc.
  - apply IH. rewrite <- Hv. by apply interference_view.
Qed.

Lemma own_steps_reach (taken l todo : list step) (w : World) :
  rtc interleave (mkConfig taken (l ++ todo) w)
                 (mkConfig (taken ++ l) todo (exec_steps l w)).
Proof.
  revert taken w. induction l as [|a l IH]; intros taken w.
  { rewrite app_nil_r. apply rtc_refl. }
  eapply rtc_l; [apply own_step|].
  replace (taken ++ a :: l) with ((taken ++ [a]) ++ l) by by rewrite <- app_assoc.
  apply IH.
Qed.

Lemma exec_installs_locked (l : list step) (w : World) :
  Forall (λ a, is_install a = true) l →
  mu_locked w = true → mu_locked (exec_steps l w) = true.
Proof.
  revert w. induction l as [|a l IH]; intros w Hl Hw; [done|].
  apply Forall_cons in Hl as [Ha Hl]. simpl. apply IH; [done|].
  by destruct a.
Qed.

Lemma exec_locals_view (l : list step) (w : World) :
  Forall (λ a, is_local a = true) l → view (exec_steps l w) = view w.
Proof.
  intros Hl. apply exec_steps_view_unchanged.
  eapply Forall_impl; [exact Hl|]. by intros a ->.
Qed.

Lemma exec_teardown_view (l : list step) (w : World) :
  Forall (λ a, is_teardown a = true) l → view (exec_steps l w) = view w.
Proof.
  intros Hl. apply exec_steps_view_unchanged.
  eapply Forall_impl; [exact Hl|]. intros a ->. apply orb_true_r.
Qed.

Lemma no_teardown (l : list step) :
  Forall (λ a, is_teardown a = false) l → existsb is_teardown l = false.
Proof.
  induction 1 as [|a l Ha _ IH]; [done|]. simpl. by rewrite Ha, IH.
Qed.

Lemma local_not_teardown (l : list step) :
  Forall (λ a, is_local a = true) l → Forall (λ a, is_teardown a = false) l.
Proof. intros Hl. eapply Forall_impl; [exact Hl|]. by intros []. Qed.

Lemma install_not_teardown (l : list step) :
  Forall (λ a, is_install a = true) l → Forall (λ a, is_teardown a = false) l.
Proof. intros Hl. eapply Forall_impl; [exact Hl|]. by intros []. Qed.

(** The lock is free once the lock section is over. *)
Lemma exec_swap_unlocked (pre writes post : list step) (w : World) :
  Forall (λ a, is_teardown a = true) post →
  mu_locked (exec_steps (swap_steps pre writes post) w) = false.
Proof.
  intros Hpost. unfold swap_steps.
  rewrite app_assoc, exec_steps_app.
  pose proof (exec_teardown_view post
                (exec_steps (pre ++ SLock :: writes ++ [SUnlock]) w) Hpost) as Hv.
  injection Hv as _ _ _ ->.
  rewrite exec_steps_app, app_comm_cons, exec_steps_snoc. reflexivity.
Qed.

(** A swap under interleaving. *)
Lemma swap_steps_safe (pre writes post : list step) (w : World) (c : config) :
  Forall (λ a, is_local a = true) pre →
  Forall (λ a, is_install a = true) writes →
  Forall (λ a, is_teardown a = true) post →
  mu_locked w = false →
  rtc interleave (mkConfig [] (swap_steps pre writes post) w) c →
  swap_safe w (exec_steps (swap_steps pre writes post) w) c.
Proof.
  intros Hpre Hwrites Hpost Hfree Hreach.
  apply (interleave_tracks w) in Hreach as [Hsplit Hview]; [|done].
  simpl in Hsplit. unfold swap_steps in Hsplit.
  set (mid := SLock :: writes ++ [SUnlock]) in *.
  assert (Hfinal : ∀ l, Forall (λ a, is_teardown a = true) l →
            view (exec_steps ((pre ++ mid) ++ l) w) = view (exec_steps (pre ++ mid) w)).
  { intros l Hl. rewrite exec_steps_app. by apply exec_teardown_view. }
  assert (Hend : view (exec_steps (swap_steps pre writes post) w) =
                 view (exec_steps (pre ++ mid) w)).
  { unfold swap_steps. fold mid. rewrite app_assoc. by apply Hfinal. }
  assert (Hunlocked : mu_locked (exec_steps (pre ++ mid) w) = false).
  { unfold mid. rewrite exec_steps_app, app_comm_cons, exec_steps_snoc. reflexivity. }
  assert (Hpast : ∀ l, Forall (λ a, is_teardown a = true) l →
            taken c = (pre ++ mid) ++ l →
            swap_safe w (exec_steps (swap_steps pre writes post) w) c).
  { intros l Hl Htaken. rewrite Htaken, Hfinal, <- Hend in Hview by done.
    injection Hview as Hs Hc Hu Hl'. unfold swap_safe, generation.
    rewrite Hs, Hc, Hu, Hl'. rewrite exec_swap_unlocked by done. auto. }
  assert (Hbefore : ∀ l, Forall (λ a, is_local a = true) l →
            taken c = l →
            swap_safe w (exec_steps (swap_steps pre writes post) w) c).
  { intros l Hl Htaken. rewrite Htaken, exec_locals_view in Hview by done.
    injection Hview as Hs Hc Hu Hl'. unfold swap_safe, generation, teardown_begun.
    rewrite Htaken, no_teardown by by apply local_not_teardown.
    rewrite Hs, Hc, Hu. split; [done|auto]. }
  apply app_eq_inv in Hsplit as [(k & Htaken & Hrest)|(k & Hpre' & _)].
  2:{ apply (Hbefore (taken c)); [|done]. rewrite Hpre' in Hpre.
      by apply Forall_app in Hpre as [? _]. }
  symmetry in Hrest.
  apply app_eq_inv in Hrest as [(k' & Hk & Hpost')|(k' & Hmid & _)].
  { apply (Hpast k'); [|by rewrite Htaken, Hk, app_assoc].
    rewrite Hpost' in Hpost. by apply Forall_app in Hpost as [? _]. }
  destruct k as [|a k].
  { apply (Hbefore pre); [done|]. by rewrite Htaken, app_nil_r. }
  unfold mid in Hmid. injection Hmid as <- Hmid.
  destruct k' as [|b k' _] using rev_ind.
  { apply (Hpast []); [constructor|]. rewrite Htaken, app_nil_r.
    unfold mid. rewrite Hmid, app_nil_r. done. }
  rewrite app_assoc in Hmid. apply app_inj_tail in Hmid as [Hw _].
  rewrite Hw in Hwrites. apply Forall_app in Hwrites as [Hk _].
  rewrite Htaken in Hview.
  assert (Hlocked : mu_locked (exec_steps (pre ++ SLock :: k) w) = true).
  { rewrite exec_steps_app, exec_steps_cons. by apply exec_installs_locked. }
  injection Hview as _ _ _ Hl'. rewrite Hlocked in Hl'.
  unfold swap_safe, teardown_begun. rewrite Htaken, Hl'.
  rewrite no_teardown; [split; discriminate|].
  apply Forall_app. split; [by apply local_not_teardown|].
  constructor; [done|]. by apply install_not_teardown.
Qed.
(** The maps a swap ends with are those its lock section writes. *)
Lemma swap_steps_view (pre writes post : list step) (w : World) :
  Forall (λ a, is_local a = true) pre →
  Forall (λ a, is_teardown a = true) post →
  view (exec_steps (swap_steps pre writes post) w) =
  view (exec_steps (SLock :: writes ++ [SUnlock]) w).
Proof.
  intros Hpre Hpost. unfold swap_steps.
  rewrite exec_steps_app, exec_steps_app, exec_teardown_view by done.
  apply exec_steps_view. by apply exec_locals_view.
Qed.

Lemma elem_of_stopUserServers (us : gmap string loc) (a : step) :
  a ∈ stopUserServers us ↔ ∃ owner p, us !! owner = Some p ∧ a = SStop p.
Proof.
  unfold stopUserServers. rewrite list_elem_of_fmap. split.
  - intros ([owner p] & -> & Hin). exists owner, p.
    split; [by apply elem_of_map_to_list|done].
  - intros (owner & p & Hp & ->). exists (owner, p).
    split; [done|by apply elem_of_map_to_list].
Qed.

Lemma elem_of_closeChildren (cs : gmap string compositedav.Child) (a : step) :
  a ∈ closeChildren cs ↔ ∃ name ch, cs !! name = Some ch ∧ a = SCloseIdle ch.
Proof.
  unfold closeChildren. rewrite list_elem_of_fmap. split.
  - intros ([name ch] & -> & Hin). exists name, ch.
    split; [by apply elem_of_map_to_list|done].
  - intros (name & ch & Hch & ->). exists (name, ch).
    split; [done|by apply elem_of_map_to_list].
Qed.

(** The teardown steps of a swap are those of its last part. *)
Lemma elem_of_swap_teardown (pre writes : list step) (us : gmap string loc)
    (cs : gmap string compositedav.Child) (a : step) :
  Forall (λ a, is_local a = true) pre →
  Forall (λ a, is_install a = true) writes →
  is_teardown a = true →
  a ∈ swap_steps pre writes (stopUserServers us ++ closeChildren cs) →
  a ∈ stopUserServers us ++ closeChildren cs.
Proof.
  intros Hpre Hwrites Ha. unfold swap_steps.
  rewrite !elem_of_app, elem_of_cons, elem_of_app, list_elem_of_singleton.
  rewrite Forall_forall in Hpre. rewrite Forall_forall in Hwrites.
  intros [Hin|[[->|[Hin| ->]]|Hin]]; try done.
  - apply Hpre in Hin. by destruct a.
  - apply Hwrites in Hin. by destruct a.
Qed.

(** A swap under interleaving, with the generation it installs and the
    generation it tears down spelled out. *)
Lemma swap_steps_replaces (pre writes : list step) (us : gmap string loc)
    (cs : gmap string compositedav.Child) (w : World) (c : config) :
  Forall (λ a, is_local a = true) pre →
  Forall (λ a, is_install a = true) writes →
  mu_locked w = false →
  rtc interleave
    (mkConfig [] (swap_steps pre writes (stopUserServers us ++ closeChildren cs)) w) c →
  replaces (generation w)
    (generation (exec_steps (SLock :: writes ++ [SUnlock]) w)) us cs c.
Proof.
  intros Hpre Hwrites Hfree Hreach.
  set (post := stopUserServers us ++ closeChildren cs) in *.
  assert (Hpost : Forall (λ a, is_teardown a = true) post) by apply teardown_steps.
  pose proof (swap_steps_safe pre writes post w c Hpre Hwrites Hpost Hfree Hreach)
    as [Hbegun Hfree'].
  pose proof (f_equal fst (swap_steps_view pre writes post w Hpre Hpost)) as Hgen.
  change (generation (exec_steps (swap_steps pre writes post) w) =
          generation (exec_steps (SLock :: writes ++ [SUnlock]) w)) in Hgen.
  rewrite Hgen in Hbegun, Hfree'.
  apply (interleave_tracks w) in Hreach as [Hsplit Hview]; [|done].
  simpl in Hsplit.
  assert (Htaken : ∀ a, a ∈ taken c → is_teardown a = true → a ∈ post).
  { intros a Hin Ha. apply (elem_of_swap_teardown pre writes us cs a); [done..|].
    fold post. rewrite <- Hsplit. apply elem_of_app. by left. }
  unfold replaces. split_and!; [done|done| | |].
  - intros p Hin. apply Htaken in Hin; [|done].
    apply elem_of_app in Hin as [Hin|Hin].
    + apply elem_of_stopUserServers in Hin as (owner & q & Hq & [= ->]). by exists owner.
    + by apply elem_of_closeChildren in Hin as (? & ? & _ & ?).
  - intros ch Hin. apply Htaken in Hin; [|done].
    apply elem_of_app in Hin as [Hin|Hin].
    + by apply elem_of_stopUserServers in Hin as (? & ? & _ & ?).
    + apply elem_of_closeChildren in Hin as (name & ch' & Hch & [= ->]). by exists name.
  - intros Hdone. rewrite Hdone, app_nil_r in Hsplit. rewrite Hsplit in Hview.
    split_and!.
    + etrans; [exact (f_equal snd Hview)|]. by apply exec_swap_unlocked.
    + etrans; [exact (f_equal fst Hview)|exact Hgen].
    + intros owner p Hp. rewrite Hsplit. unfold swap_steps, post.
      rewrite !elem_of_app. right; right; left.
      apply elem_of_stopUserServers. by exists owner, p.
    + intros name ch Hch. rewrite Hsplit. unfold swap_steps, post.
      rewrite !elem_of_app. right; right; right.
      apply elem_of_closeChildren. by exists name, ch.
Qed.

(** The steps of [SetShares] past the lookup of the executable. *)
Lemma SetShares_steps_passed (shareSet : gmap string tailfs.Share) (w : World) :
  passes_executable_lookup →
  SetShares_steps shareSet w =
    swap_steps (SetShares_prepare shareSet w)
      [SSetShares shareSet;
       SSetChildren (SetShares_generation shareSet w).1.2;
       SSetUserServers (SetShares_generation shareSet w).2]
      (stopUserServers (userServers (fs w)) ++ closeChildren (children (fs w))).
Proof.
  intros Hpass.
  unfold SetShares_steps, SetShares_prepare, SetShares_generation, SetShares_servers,
    swap_steps.
  destruct tailfs_AllowShareAs eqn:Hallow.
  - destruct Hpass as [?|[executable Hexe]]; [congruence|]. rewrite Hexe.
    cbn [fst snd]. by rewrite <- !app_assoc.
  - cbn [fst snd]. by rewrite <- !app_assoc.
Qed.

Lemma SetShares_prepare_local (shareSet : gmap string tailfs.Share) (w : World) :
  Forall (λ a, is_local a = true) (SetShares_prepare shareSet w).
Proof.
  unfold SetShares_prepare. rewrite !Forall_app.
  split_and!; apply Forall_fmap, Forall_forall; by intros.
Qed.

(** C6, as the code has it.  Past the lookup of the executable,
    [SetShares] is a swap: steps that write or lock nothing shared, then
    one lock section that writes the new share map, the new children map
    and the new userServers map, then the stopping of every userServer
    and the closing of the idle connections of every child of the maps
    [SetShares] found.  [Close] is a swap as well: its lock section
    writes an empty userServers map and an empty children map and leaves
    the share map alone.  In every interleaving of such an operation,
    started with [mu] free, with the steps of the other goroutines: once
    any teardown step has been taken [mu] is free and the maps are the
    new ones; whenever [mu] is free the maps are all the previous ones or
    all the new ones; nothing but the previous servers and children is
    torn down; and when the operation has taken its last step the new
    maps are in place and every previous server has been stopped and
    every previous child asked to close its idle connections.  Each
    operation does reach its end. *)
Theorem generation_installed_before_teardown (shareSet : gmap string tailfs.Share)
    (w : World) :
  mu_locked w = false →
  let teardown :=
    stopUserServers (userServers (fs w)) ++ closeChildren (children (fs w)) in
  (passes_executable_lookup →
     SetShares_steps shareSet w =
       swap_steps (SetShares_prepare shareSet w)
         [SSetShares shareSet;
          SSetChildren (SetShares_generation shareSet w).1.2;
          SSetUserServers (SetShares_generation shareSet w).2]
         teardown ∧
     Forall (λ a, is_local a = true) (SetShares_prepare shareSet w) ∧
     (SetShares_generation shareSet w).1.1 = shareSet ∧
     (∀ c, rtc interleave (mkConfig [] (SetShares_steps shareSet w) w) c →
           replaces (generation w) (SetShares_generation shareSet w)
             (userServers (fs w)) (children (fs w)) c) ∧
     rtc interleave (mkConfig [] (SetShares_steps shareSet w) w)
       (mkConfig (SetShares_steps shareSet w) [] (SetShares shareSet w))) ∧
  Close_steps w = swap_steps [] [SSetUserServers ∅; SSetChildren ∅] teardown ∧
  (∀ c, rtc interleave (mkConfig [] (Close_steps w) w) c →
        replaces (generation w) (fs_shares (fs w), ∅, ∅)
          (userServers (fs w)) (children (fs w)) c) ∧
  rtc interleave (mkConfig [] (Close_steps w) w)
    (mkConfig (Close_steps w) [] (Close w)).
Proof.
  intros Hfree teardown. split_and!.
  - intros Hpass. pose proof (SetShares_steps_passed shareSet w Hpass) as Hsteps.
    split_and!; [done|apply SetShares_prepare_local|done| |].
    + intros c. rewrite Hsteps. intros Hreach.
      apply swap_steps_replaces in Hreach;
        [exact Hreach|apply SetShares_prepare_local|by repeat constructor|done].
    + pose proof (own_steps_reach [] (SetShares_steps shareSet w) [] w) as Hreach.
      by rewrite app_nil_r in Hreach.
  - reflexivity.
  - intros c Hreach.
    change (Close_steps w) with
      (swap_steps [] [SSetUserServers ∅; SSetChildren ∅] teardown) in Hreach.
    apply swap_steps_replaces in Hreach;
      [exact Hreach|constructor|by repeat constructor|done].
  - pose proof (own_steps_reach [] (Close_steps w) [] w) as Hreach.
    by rewrite app_nil_r in Hreach.
Qed.
End swap_facts.

(** ** Dialing a share's backend *)

Section Dial_facts.
Context `{Platform}.


(** C9.  For a known share with a backend address: an address that
    parses as an address and port is dialed over TCP, any other is
    connected to as a safesocket path, and the dial returns what that
    one call returned, error or connection, without trying the other.
    With the share-as mechanism off the address is the file server
    address, and the dial does not depend on the userServers map or on
    any userServer. *)
Theorem dial_classification (w : World) (shareAddr shareNameHex port shareName : string)
    (share : tailfs.Share) :
  net_SplitHostPort shareAddr = Some (shareNameHex, port) →
  hex_DecodeString shareNameHex = Some shareName →
  fs_shares (fs w) !! shareName = Some share →
  (backend_addr w share ≠ EmptyString →
     (netip_ParseAddrPort_ok (backend_addr w share) = true →
        Dial w shareAddr =
          (returned (net_Dial_tcp (backend_addr w share)),
           [NetDialTcp (backend_addr w share)])) ∧
     (netip_ParseAddrPort_ok (backend_addr w share) = false →
        Dial w shareAddr =
          (returned (safesocket_Connect (backend_addr w share)),
           [SafesocketConnect (backend_addr w share)]))) ∧
  (tailfs_AllowShareAs = false →
     backend_addr w share = fileServerAddr (fs w) ∧
     ∀ w2 addr', fs_shares (fs w2) = fs_shares (fs w) →
           fileServerAddr (fs w2) = fileServerAddr (fs w) →
           Dial w2 addr' = Dial w addr').
Proof.
  intros Hsplit Hdecode Hshare. split.
  - intros Haddr. unfold Dial. rewrite Hsplit, Hdecode, Hshare.
    rewrite decide_False by done. by split; intros ->.
  - intros Hoff. split.
    + unfold backend_addr. by rewrite Hoff.
    + intros w2 addr' Hs Hf. unfold Dial, backend_addr. by rewrite Hoff, Hs, Hf.
Qed.
End Dial_facts.

(** ** The model at work *)

(** The sample platform on a few inputs. *)
Example sample_trim : Sample.TrimSpace " 127.0.0.1:8080 " = "127.0.0.1:8080".
Proof. reflexivity. Qed.

Example sample_hex : Sample.DecodeString (Sample.EncodeToString "A b") = Some "A b".
Proof. reflexivity. Qed.

Example sample_split : Sample.CleanAndSplit "/A/file.txt" = ["A"; "file.txt"].
Proof. reflexivity. Qed.

Example sample_addr :
  Sample.ParseAddrPort_ok "127.0.0.1:8080" = true ∧
  Sample.ParseAddrPort_ok "/run/tailscaled.sock" = false.
Proof. split; reflexivity. Qed.

(** Failing at once eighteen times: the failure counts and the delays in
    milliseconds.  After the ceiling has been slept the next failure is
    the ceiling away from the last, and the count starts again. *)
Example runLoop_immediate_failures :
  (λ a, (at_failures a, at_sleep a / Millisecond)) <$>
    (runLoop (H:=SwapSample.P) (replicate 18 SwapSample.crash) SwapSample.clock0
       (serving "alice" Sample.tailscaled [Sample.A])).2 =
  [(1, 2); (2, 4); (3, 8); (4, 16); (5, 32); (6, 64); (7, 128); (8, 256);
   (9, 512); (10, 1024); (11, 2048); (12, 4096); (13, 8192); (14, 16384);
   (15, 30000); (1, 2); (2, 4); (3, 8)].
Proof. vm_compute. reflexivity. Qed.

(** A failure a minute after the previous one starts the count again. *)
Example runLoop_reset_after_gap :
  (λ a, (at_failures a, at_sleep a / Millisecond)) <$>
    (runLoop (H:=SwapSample.P)
       [SwapSample.crash; SwapSample.crash; SwapSample.crash;
        SwapSample.late_crash; SwapSample.crash]
       SwapSample.clock0 (serving "alice" Sample.tailscaled [Sample.A])).2 =
  [(1, 2); (2, 4); (3, 8); (1, 2); (2, 4)].
Proof. vm_compute. reflexivity. Qed.

Lemma runLoop_backs_off_witness :
  let trace := (runLoop (H:=SwapSample.P) (replicate 18 SwapSample.crash)
                  SwapSample.clock0
                  (serving "alice" Sample.tailscaled [Sample.A])).2 in
  Forall (backs_off (H:=SwapSample.P)) trace ∧ length trace = 18%nat.
Proof.
  intros trace.
  destruct (runLoop_backs_off (H:=SwapSample.P) (replicate 18 SwapSample.crash)
              SwapSample.clock0 (serving "alice" Sample.tailscaled [Sample.A]))
    as (Hall & _ & _ & _ & _ & Hlen).
  split; [exact Hall|]. apply Hlen; [reflexivity|].
  repeat constructor.
Defined.

(** alice's server has published an address; the child of the next start
    ends its output without a line, and the address is gone. *)
Lemma run_end_of_output_overwrites_addr_witness :
  addr MoreSample.published_alice = "127.0.0.1:8080" ∧
  (run (H:=RunSample.P) MoreSample.silent MoreSample.published_alice).1.1 =
    Some (ErrWait "exit status 1") ∧
  addr (run (H:=RunSample.P) MoreSample.silent MoreSample.published_alice).1.2 =
    EmptyString ∧
  addr (run (H:=RunSample.P) MoreSample.unreadable MoreSample.published_alice).1.2 =
    "127.0.0.1:8080".
Proof.
  destruct (run_end_of_output_overwrites_addr (H:=RunSample.P) MoreSample.silent
              MoreSample.published_alice 8%nat eq_refl eq_refl eq_refl eq_refl)
    as [Heof _].
  destruct (run_end_of_output_overwrites_addr (H:=RunSample.P) MoreSample.unreadable
              MoreSample.published_alice 8%nat eq_refl eq_refl eq_refl eq_refl)
    as [_ Hfail].
  destruct (Heof eq_refl) as (Herr & Haddr & _).
  destruct (Hfail "read |0: file already closed" eq_refl) as (_ & Hkept & _).
  split_and!; [reflexivity|exact Herr| |exact Hkept].
  rewrite Haddr. reflexivity.
Defined.

(** Two shares of alice: one server, whose child is started with both
    pairs. *)
Lemma SetShares_groups_shares_by_owner_witness :
  let w' := SetShares (H:=SwapSample.P) SwapSample.ab Sample.world0 in
  userServers (fs w') = {[ "alice" := 0%nat ]} ∧
  ∃ u, heap w' !! 0%nat = Some u ∧
       shares u ≡ₚ [Sample.A; Sample.B] ∧
       ∃ c, started (run (H:=SwapSample.P) RunSample.healthy u).2 = [c] ∧
            exec.Process c = Some 7%nat ∧
            exec.Args c =
              [Sample.tailscaled; "serve-tailfs"] ++
              flat_map (λ sh, [tailfs.Name sh; tailfs.Path sh]) (shares u).
Proof.
  intros w'.
  assert (Hwf : pointers_allocated Sample.world0).
  { intros owner p Hp. vm_compute in Hp. discriminate. }
  destruct (SetShares_groups_shares_by_owner (H:=SwapSample.P) SwapSample.ab
              Sample.world0 Sample.tailscaled eq_refl eq_refl Hwf)
    as (_ & _ & Hserver & _).
  split; [vm_compute; reflexivity|].
  destruct (Hserver "alice" 0%nat) as (_ & u & Hu & Hname & Hexe & _ & _ & _ & Hperm & _ & _ & Hrun).
  { vm_compute. reflexivity. }
  exists u. split; [exact Hu|]. split.
  { etrans; [exact Hperm|]. vm_compute. reflexivity. }
  eexists. split; [apply (Hrun RunSample.healthy 7%nat); reflexivity|].
  split; [reflexivity|]. unfold launcher, canSudo. simpl. by rewrite Hexe.
Defined.

(** C7, as stated, fails where the executable is not found: the share-as
    mechanism is on and alice owns both shares of the set, yet
    [SetShares] creates no userServer, for alice or at all. *)
Lemma SetShares_no_server_counterexample :
  @tailfs_AllowShareAs SwapSample.Pnoexe = true ∧
  SwapSample.ab !! "A" = Some Sample.A ∧ tailfs.As Sample.A = "alice" ∧
  userServers (fs (SetShares (H:=SwapSample.Pnoexe) SwapSample.ab Sample.world0))
    !! "alice" = None ∧
  heap (SetShares (H:=SwapSample.Pnoexe) SwapSample.ab Sample.world0) = ∅.
Proof. split_and!; vm_compute; reflexivity. Qed.

Lemma SetShares_without_executable_witness :
  fs (SetShares (H:=SwapSample.Pnoexe) SwapSample.ab SwapSample.installed) =
    fs SwapSample.installed ∧
  heap (SetShares (H:=SwapSample.Pnoexe) SwapSample.ab SwapSample.installed) =
    heap SwapSample.installed.
Proof.
  destruct (SetShares_without_executable (H:=SwapSample.Pnoexe) SwapSample.ab
              SwapSample.installed "no such file" eq_refl eq_refl)
    as (_ & Hfs & Hheap & _).
  split; [exact Hfs|exact Hheap].
Defined.

(** [Close] on the installed world, stopped after its lock section and
    one teardown step: [mu] is free, the children and userServers maps
    are empty and the share map is the one [Close] found.  And a second
    [SetShares] on the installed world, run to its end: the share map is
    the one passed and bob's server, which the new share set has no use
    for, has been stopped. *)
Lemma generation_installed_before_teardown_witness :
  generation (world SwapSample.closing) = (SwapSample.abc, ∅, ∅) ∧
  mu_locked (world SwapSample.closing) = false ∧
  fs_shares (fs (SetShares (H:=SwapSample.P) SwapSample.ab SwapSample.installed)) =
    SwapSample.ab ∧
  SStop 1%nat ∈ SetShares_steps (H:=SwapSample.P) SwapSample.ab SwapSample.installed.
Proof.
  assert (Hfree : mu_locked SwapSample.installed = false) by (vm_compute; reflexivity).
  destruct (generation_installed_before_teardown (H:=SwapSample.P) SwapSample.ab
              SwapSample.installed Hfree) as (Hset & _ & Hclose & _).
  destruct (Hclose SwapSample.closing) as (Hbegun & _).
  { pose proof (own_steps_reach (H:=SwapSample.P) []
                  (take 5 (Close_steps SwapSample.installed))
                  (drop 5 (Close_steps SwapSample.installed))
                  SwapSample.installed) as Hreach.
    rewrite take_drop in Hreach. exact Hreach. }
  destruct Hbegun as [Hlock Hgen]; [vm_compute; reflexivity|].
  destruct Hset as (_ & _ & Hshares & Hrep & Hend).
  { right. by exists Sample.tailscaled. }
  destruct (Hrep _ Hend) as (_ & _ & _ & _ & Hdone).
  destruct (Hdone eq_refl) as (_ & Hnew & Hstops & _).
  split_and!.
  - rewrite Hgen. vm_compute. reflexivity.
  - exact Hlock.
  - etrans; [exact (f_equal (λ g, g.1.1) Hnew)|exact Hshares].
  - apply (Hstops "bob" 1%nat). vm_compute. reflexivity.
Defined.

(** C6, as stated, fails on two counts.  [Close] installs no share map:
    none of its steps writes one, and the share map it leaves is the one
    it found, with every share still in it.  And [SetShares], where the
    executable is not found, installs nothing at all: the three maps stay
    those of the previous call, not those of the share set passed. *)
Lemma Close_installs_no_share_map_counterexample :
  Forall (λ a, ∀ m, a ≠ SSetShares m) (Close_steps SwapSample.installed) ∧
  fs_shares (fs (Close (H:=SwapSample.P) SwapSample.installed)) = SwapSample.abc ∧
  SwapSample.abc !! "C" = Some Sample.C ∧
  generation (SetShares (H:=SwapSample.Pnoexe) SwapSample.ab SwapSample.installed) =
    generation SwapSample.installed ∧
  fs_shares (fs SwapSample.installed) !! "C" = Some Sample.C ∧
  SwapSample.ab !! "C" = None.
Proof.
  split_and!; try (vm_compute; reflexivity).
  vm_compute. repeat constructor; intros m; discriminate.
Qed.



Lemma dial_classification_witness :
  Dial (H:=SwapSample.P) SwapSample.published "41:80" =
    (inr 1%nat, [NetDialTcp "127.0.0.1:8080"]) ∧
  Dial (H:=SwapSample.P) SwapSample.published "43:80" =
    (inr 2%nat, [SafesocketConnect "/run/tailfs-bob.sock"]).
Proof.
  assert (HA : fs_shares (fs SwapSample.published) !! "A" = Some Sample.A)
    by (vm_compute; reflexivity).
  assert (HC : fs_shares (fs SwapSample.published) !! "C" = Some Sample.C)
    by (vm_compute; reflexivity).
  destruct (dial_classification (H:=SwapSample.P) SwapSample.published
              "41:80" "41" "80" "A" Sample.A eq_refl eq_refl HA) as [Htcp _].
  destruct (dial_classification (H:=SwapSample.P) SwapSample.published
              "43:80" "43" "80" "C" Sample.C eq_refl eq_refl HC) as [Hsock _].
  split.
  - destruct Htcp as [Htcp _]; [vm_compute; discriminate|].
    rewrite Htcp by (vm_compute; reflexivity). vm_compute. reflexivity.
  - destruct Hsock as [_ Hsock]; [vm_compute; discriminate|].
    rewrite Hsock by (vm_compute; reflexivity). vm_compute. reflexivity.
Defined.

(** * Further properties *)

(** ** [run], [assertNotRoot] and [userServer.Close] *)

Section run_more.
Context `{Platform}.

Lemma run_started_shape (o : RunEnv) (c : exec.Cmd) (s : userServer) (log : list event) :
  started log = [] → pipes_closed log = [] → drains log = [] →
  let '(err, s', evs) := run_started o c s log in
  shares s' = shares s ∧ username s' = username s ∧
  executable s' = executable s ∧ closed s' = closed s ∧
  (started evs = [] ∧ s' = s ∨
   ∃ pid, Start_result o = inr pid ∧
          started evs = [{| exec.Path := exec.Path c; exec.Args := exec.Args c;
                            exec.Process := Some pid |}] ∧
          cmd s' = Some {| exec.Path := exec.Path c; exec.Args := exec.Args c;
                           exec.Process := Some pid |}) ∧
  pipes_closed evs =
    match StdoutPipe_err o, StderrPipe_err o with
    | Some _, _ => []
    | None, Some _ => [Stdout]
    | None, None => [Stderr; Stdout]
    end ∧
  (drains evs = [] ∧ addr s' = addr s ∨
   drains evs = [Stdout; Stderr] ∧ started evs ≠ [] ∧
   scan_Err (first_Scan o) = None ∧
   addr s' = strings_TrimSpace (scan_Text (first_Scan o)) ∧
   err = ErrWait <$> Wait_err o).
Proof.
  intros Hst Hpc Hdr. unfold run_started.
  destruct (StdoutPipe_err o); [by split_and!; auto|].
  destruct (StderrPipe_err o).
  { unfold started, pipes_closed, drains in *.
    rewrite !omap_app, Hst, Hpc, Hdr. by split_and!; auto. }
  destruct (Start_result o) as [e|pid].
  { unfold started, pipes_closed, drains in *.
    rewrite !omap_app, Hst, Hpc, Hdr. by split_and!; auto. }
  destruct (scan_Err (first_Scan o)) eqn:Hscan.
  - unfold started, pipes_closed, drains in *.
    rewrite !omap_app, Hst, Hpc, Hdr. split_and!; try done; [|by left].
    right. by exists pid.
  - unfold started, pipes_closed, drains in *.
    rewrite !omap_app, Hst, Hpc, Hdr. split_and!; try done.
    + right. by exists pid.
    + right. by split_and!.
Qed.

(** What every call of [run] keeps and does. *)
Lemma run_shape (o : RunEnv) (s : userServer) :
  let '(err, s', evs) := run o s in
  shares s' = shares s ∧ username s' = username s ∧
  executable s' = executable s ∧ closed s' = closed s ∧
  (started evs = [] ∧ s' = s ∨
   ∃ c, started evs = [c] ∧ cmd s' = Some c ∧ is_Some (exec.Process c) ∧
        launches o s = true) ∧
  (launches o s = false → evs = []) ∧
  (launches o s = true →
   pipes_closed evs =
     match StdoutPipe_err o, StderrPipe_err o with
     | Some _, _ => []
     | None, Some _ => [Stdout]
     | None, None => [Stderr; Stdout]
     end) ∧
  (drains evs = [] ∧ addr s' = addr s ∨
   drains evs = [Stdout; Stderr] ∧ started evs ≠ [] ∧
   scan_Err (first_Scan o) = None ∧
   addr s' = strings_TrimSpace (scan_Text (first_Scan o)) ∧
   err = ErrWait <$> Wait_err o).
Proof.
  unfold run, launches. destruct (canSudo o s); simpl.
  - match goal with |- context [run_started o ?c s ?log] =>
      pose proof (run_started_shape o c s log eq_refl eq_refl eq_refl) as Hshape;
      destruct (run_started o c s log) as [[err s'] evs] end.
    destruct Hshape as (? & ? & ? & ? & Hst & Hpc & Hdr).
    split_and!; try done.
    destruct Hst as [?|(pid & _ & ? & ?)]; [by left|right]. eexists. by split_and!.
  - destruct (assertNotRoot o).
    { split_and!; try done; by left. }
    match goal with |- context [run_started o ?c s ?log] =>
      pose proof (run_started_shape o c s log eq_refl eq_refl eq_refl) as Hshape;
      destruct (run_started o c s log) as [[err s'] evs] end.
    destruct Hshape as (? & ? & ? & ? & Hst & Hpc & Hdr).
    split_and!; try done.
    destruct Hst as [?|(pid & _ & ? & ?)]; [by left|right]. eexists. by split_and!.
Qed.

Lemma elem_of_started (evs : list event) (c : exec.Cmd) :
  Started c ∈ evs ↔ c ∈ started evs.
Proof.
  unfold started. rewrite list_elem_of_omap. split.
  - intros Hin. by exists (Started c).
  - intros (e & Hin & He). destruct e; by simplify_eq.
Qed.

(** X1.  Without a way to [sudo], [run] starts a child only when the
    current user was found and its UID is not "0". *)
Theorem run_without_sudo_never_starts_as_root (o : RunEnv) (s : userServer)
    (c : exec.Cmd) :
  canSudo o s = false →
  Started c ∈ (run o s).2 →
  ∃ u, user_Current o = inr u ∧ user.Uid u ≠ "0".
Proof.
  intros Hsudo Hin. pose proof (run_shape o s) as Hshape.
  destruct (run o s) as [[err s'] evs]. simpl in Hin.
  destruct Hshape as (_ & _ & _ & _ & _ & Hnone & _).
  unfold launches, assertNotRoot in Hnone. rewrite Hsudo in Hnone. simpl in Hnone.
  destruct (user_Current o) as [e|u].
  { rewrite Hnone in Hin by done. by apply elem_of_nil in Hin. }
  exists u. split; [done|]. intros Huid. rewrite decide_True in Hnone by done.
  rewrite Hnone in Hin by done. by apply elem_of_nil in Hin.
Qed.

(** X2.  [run] never changes the shares, the user name, the executable or
    the closed flag of its server, and starts at most one child.  When it
    starts none the server is returned as it was; when it starts one, that
    child, with its process, is what [cmd] holds afterwards. *)
Theorem run_changes_only_after_start (o : RunEnv) (s : userServer) :
  let '(err, s', evs) := run o s in
  shares s' = shares s ∧ username s' = username s ∧
  executable s' = executable s ∧ closed s' = closed s ∧
  (started evs = [] ∧ s' = s ∨
   ∃ c, started evs = [c] ∧ cmd s' = Some c ∧ is_Some (exec.Process c)).
Proof.
  pose proof (run_shape o s) as Hshape. destruct (run o s) as [[err s'] evs].
  destruct Hshape as (? & ? & ? & ? & Hst & _). split_and!; try done.
  destruct Hst as [?|(c & ? & ? & ? & _)]; [by left|right]. by exists c.
Qed.

(** X3.  The deferred closes: when [run] gets as far as making pipes, it
    closes on return exactly the pipes it made, the standard error pipe
    before the standard output pipe; when it does not get that far it
    does nothing at all. *)
Theorem run_closes_its_pipes (o : RunEnv) (s : userServer) :
  (launches o s = false → (run o s).2 = []) ∧
  (launches o s = true →
   pipes_closed (run o s).2 =
     match StdoutPipe_err o, StderrPipe_err o with
     | Some _, _ => []
     | None, Some _ => [Stdout]
     | None, None => [Stderr; Stdout]
     end).
Proof.
  pose proof (run_shape o s) as Hshape. destruct (run o s) as [[err s'] evs].
  by destruct Hshape as (_ & _ & _ & _ & _ & ? & ? & _).
Qed.

(** X4.  The two drains are started together or not at all, and they are
    started exactly when [run] writes [addr]: after a child has been
    started and its first line read without error.  [run] then returns
    what [cmd.Wait] returns. *)
Theorem run_drains_with_addr (o : RunEnv) (s : userServer) :
  let '(err, s', evs) := run o s in
  drains evs = [] ∧ addr s' = addr s ∨
  drains evs = [Stdout; Stderr] ∧ started evs ≠ [] ∧
  scan_Err (first_Scan o) = None ∧
  addr s' = strings_TrimSpace (scan_Text (first_Scan o)) ∧
  err = ErrWait <$> Wait_err o.
Proof.
  pose proof (run_shape o s) as Hshape. destruct (run o s) as [[err s'] evs].
  by destruct Hshape as (_ & _ & _ & _ & _ & _ & _ & ?).
Qed.

(** X5.  A child that [run] started is killed by a [Close] of the server
    that follows, also when [run] returned with an error after the
    start: [Close] marks the server closed, calls [Kill] on that child's
    process and returns what [Kill] returns. *)
Theorem Close_kills_the_started_child (o : RunEnv) (s : userServer) (c : exec.Cmd) :
  Started c ∈ (run o s).2 →
  ∃ pid, exec.Process c = Some pid ∧
         userServer_Close (run o s).1.2 =
           (Process_Kill pid, set_closed true (run o s).1.2, Some pid).
Proof.
  intros Hin. pose proof (run_shape o s) as Hshape.
  destruct (run o s) as [[err s'] evs]. simpl in *.
  destruct Hshape as (_ & _ & _ & _ & Hst & _).
  apply elem_of_started in Hin.
  destruct Hst as [[Hnone _]|(c' & Hone & Hcmd & [pid Hpid] & _)].
  { rewrite Hnone in Hin. by apply elem_of_nil in Hin. }
  rewrite Hone in Hin. apply list_elem_of_singleton in Hin as ->.
  exists pid. split; [done|]. unfold userServer_Close. by rewrite Hcmd, Hpid.
Qed.
End run_more.

(** ** [runLoop] *)

Section runLoop_more.
Context `{Platform}.

Lemma runLoop_from_closed (envs : list IterEnv) (st : backoff) (clock : Z)
    (s : userServer) :
  closed s = true →
  (runLoop_from envs st clock s).2 = [] ∧
  closed (runLoop_from envs st clock s).1 = true.
Proof.
  intros Hs. destruct envs as [|e envs]; [done|].
  cbn [runLoop_from]. destruct (close_called e); simpl; by rewrite ?Hs.
Qed.

Lemma runLoop_from_until_close (pre : list IterEnv) (e : IterEnv) (post : list IterEnv)
    (st : backoff) (clock : Z) (s : userServer) :
  closed s = false →
  Forall (λ e, close_called e = false) pre →
  close_called e = true →
  length (runLoop_from (pre ++ e :: post) st clock s).2 = length pre ∧
  closed (runLoop_from (pre ++ e :: post) st clock s).1 = true.
Proof.
  revert st clock s. induction pre as [|e' pre IH]; intros st clock s Hs Hpre He.
  { cbn [app runLoop_from]. by rewrite He. }
  apply Forall_cons in Hpre as [He' Hpre].
  cbn [app runLoop_from]. rewrite He', Hs.
  pose proof (run_closed (run_env e') s) as Hc.
  destruct (run (run_env e') s) as [[err s1] evs]. simpl in Hc.
  destruct (next_sleep st _) as [st' sleepTime].
  specialize (IH st' (clock + Z.of_N (run_elapsed e') + Z.max 0 sleepTime +
                      Z.of_N (sleep_extra e')) s1).
  destruct (runLoop_from (pre ++ e :: post) st' _ s1) as [s' rest]. simpl in *.
  destruct IH as [IHlen IHclosed]; [congruence|done|done|].
  by rewrite IHlen.
Qed.

(** X6.  A run loop makes one attempt per iteration until [Close] is
    called on its server and none from then on, and hands the server back
    closed; the loop of a server that is closed already makes no attempt
    at all. *)
Theorem runLoop_stops_at_close (pre : list IterEnv) (e : IterEnv) (post : list IterEnv)
    (clock : Z) (s : userServer) :
  Forall (λ e, close_called e = false) pre →
  close_called e = true →
  (closed s = false →
   length (runLoop (pre ++ e :: post) clock s).2 = length pre ∧
   closed (runLoop (pre ++ e :: post) clock s).1 = true) ∧
  (closed s = true →
   (runLoop (pre ++ e :: post) clock s).2 = [] ∧
   closed (runLoop (pre ++ e :: post) clock s).1 = true).
Proof.
  intros Hpre He. unfold runLoop. split; intros Hs.
  - by apply runLoop_from_until_close.
  - by apply runLoop_from_closed.
Qed.

Lemma pow2_pos (x : Z) : 0 ≤ x → 1 ≤ 2 ^ x.
Proof. intros Hx. pose proof (Z.pow_pos_nonneg 2 x). lia. Qed.

Lemma runLoop_from_bounded (envs : list IterEnv) (st : backoff) (clock : Z)
    (s : userServer) :
  slept st clock →
  Forall attempt_bounded (runLoop_from envs st clock s).2.
Proof.
  revert st clock s. induction envs as [|e envs IH]; intros st clock s Hslept.
  { constructor. }
  cbn [runLoop_from].
  set (s0 := if close_called e then set_closed true s else s).
  destruct (closed s0); [constructor|].
  destruct (run (run_env e) s0) as [[err s1] evs].
  set (now := clock + Z.of_N (run_elapsed e)).
  pose proof (next_sleep_step st clock now Hslept ltac:(lia)) as Hstep.
  destruct (next_sleep st now) as [st' sleepTime].
  destruct Hstep as (Hlast & Hnext & Hback).
  assert (Hafter : now + Z.max 0 sleepTime ≤
                   now + Z.max 0 sleepTime + Z.of_N (sleep_extra e)) by lia.
  pose proof (Hnext _ Hafter) as Hslept'.
  specialize (IH st' (now + Z.max 0 sleepTime + Z.of_N (sleep_extra e)) s1 Hslept').
  destruct (runLoop_from envs st' _ s1) as [s' rest].
  cbn [fst snd] in *. constructor; [|done].
  destruct Hback as (_ & _ & Hpos & Hsleep).
  unfold attempt_bounded. cbn [at_failures at_sleep] in *.
  assert (Hmax : consecutiveFailures st' ≤ 15) by (destruct Hslept' as [?|[? _]]; lia).
  split; [lia|]. rewrite initialSleep_eq in Hsleep.
  pose proof (pow2_pos (consecutiveFailures st' - 1)).
  unfold maxSleepTime, Second, Millisecond in *. lia.
Qed.

(** X7.  Every delay of a run loop is at least 2 ms and at most 30 s, and
    the failure count that produces it is between 1 and 15: the loop
    neither spins nor sleeps beyond its ceiling, and the power of two
    never leaves the range of a duration. *)
Theorem runLoop_delays_bounded (envs : list IterEnv) (clock : Z) (s : userServer) :
  Forall attempt_bounded (runLoop envs clock s).2 ∧
  2 * Millisecond = 2000000 ∧ maxSleepTime = 30000000000.
Proof.
  split; [|done]. apply runLoop_from_bounded. by left.
Qed.

(** X8.  Of two attempts in a row, when the second failure comes less than
    the ceiling after the first, its delay is the smaller of twice the
    delay before it and the ceiling; so delays do not decrease while
    failures keep coming within the ceiling, and the ceiling is taken only
    where twice the delay before would reach it. *)
Theorem runLoop_delay_doubles (envs : list IterEnv) (clock : Z) (s : userServer)
    (i : nat) (a b : attempt) :
  (runLoop envs clock s).2 !! i = Some a →
  (runLoop envs clock s).2 !! S i = Some b →
  at_gap b < maxSleepTime →
  at_sleep a ≤ at_sleep b ∧
  at_sleep b = Z.min (2 * at_sleep a) maxSleepTime.
Proof.
  intros Ha Hb Hgap. unfold runLoop in *.
  destruct (runLoop_from_backs_off envs backoff_init clock s) as (Hall & _ & Hchain).
  { by left. }
  rewrite Forall_forall in Hall.
  destruct (Hall a) as (_ & _ & Hposa & Hsa); [by eapply list_elem_of_lookup_2|].
  destruct (Hall b) as (Hincr & _ & _ & Hsb); [by eapply list_elem_of_lookup_2|].
  rewrite (Hincr Hgap), (Hchain i a b Ha Hb) in Hsb.
  replace (at_failures a + 1 - 1) with (Z.succ (at_failures a - 1)) in Hsb by lia.
  rewrite Z.pow_succ_r in Hsb by lia.
  pose proof (pow2_pos (at_failures a - 1)).
  rewrite initialSleep_eq in *. unfold maxSleepTime, Second, Millisecond in *. lia.
Qed.

Lemma runLoop_from_identity (envs : list IterEnv) (st : backoff) (clock : Z)
    (s : userServer) :
  shares (runLoop_from envs st clock s).1 = shares s ∧
  username (runLoop_from envs st clock s).1 = username s ∧
  executable (runLoop_from envs st clock s).1 = executable s.
Proof.
  revert st clock s. induction envs as [|e envs IH]; intros st clock s; [done|].
  cbn [runLoop_from].
  set (s0 := if close_called e then set_closed true s else s).
  assert (Hs0 : shares s0 = shares s ∧ username s0 = username s ∧
                executable s0 = executable s).
  { unfold s0. by destruct (close_called e). }
  destruct (closed s0); [done|].
  pose proof (run_shape (run_env e) s0) as Hshape.
  destruct (run (run_env e) s0) as [[err s1] evs].
  destruct Hshape as (Hsh & Hun & Hex & _).
  destruct (next_sleep st _) as [st' sleepTime].
  specialize (IH st' (clock + Z.of_N (run_elapsed e) + Z.max 0 sleepTime +
                      Z.of_N (sleep_extra e)) s1).
  destruct (runLoop_from envs st' _ s1) as [s' rest]. simpl in *.
  destruct Hs0 as (? & ? & ?). destruct IH as (? & ? & ?).
  split_and!; congruence.
Qed.

(** X9.  However many times it restarts the child, a run loop serves the
    same shares as the same user with the same executable: every start
    passes the arguments the first one passed. *)
Theorem runLoop_keeps_identity (envs : list IterEnv) (clock : Z) (s : userServer) :
  let s' := (runLoop envs clock s).1 in
  shares s' = shares s ∧ username s' = username s ∧ executable s' = executable s ∧
  run_args s' = run_args s.
Proof.
  intros s'. destruct (runLoop_from_identity envs backoff_init clock s) as (Hsh & Hun & Hex).
  split_and!; [done..|]. unfold run_args. unfold s', runLoop. by rewrite Hsh.
Qed.
End runLoop_more.

(** ** The dial function, [SetFileServerAddr] and [SetShares] together *)

Section Dial_more.
Context `{Platform}.

(** X10.  A dial attempts a connection exactly when the share address
    splits into host and port, the host decodes from hex, the decoded name
    is in the share map and the share has a backend address; it never
    attempts more than one; an address that does not split is refused as
    unparsable. *)
Theorem Dial_connects_iff (w : World) (shareAddr : string) :
  ((Dial w shareAddr).2 ≠ [] ↔
   ∃ shareNameHex port shareName share,
     net_SplitHostPort shareAddr = Some (shareNameHex, port) ∧
     hex_DecodeString shareNameHex = Some shareName ∧
     fs_shares (fs w) !! shareName = Some share ∧
     backend_addr w share ≠ EmptyString) ∧
  (length (Dial w shareAddr).2 ≤ 1)%nat ∧
  (net_SplitHostPort shareAddr = None →
   Dial w shareAddr = (inl (DialRefused (ErrParseShareAddr shareAddr)), [])).
Proof.
  unfold Dial. split_and!.
  - split.
    + destruct (net_SplitHostPort shareAddr) as [[shareNameHex port]|] eqn:Hsplit; [|done].
      destruct (hex_DecodeString shareNameHex) as [shareName|] eqn:Hdecode; [|done].
      destruct (fs_shares (fs w) !! shareName) as [share|] eqn:Hshare; [|done].
      case_decide as Haddr; [done|]. intros _.
      by exists shareNameHex, port, shareName, share.
    + intros (shareNameHex & port & shareName & share & -> & -> & -> & Haddr).
      rewrite decide_False by done. by destruct (netip_ParseAddrPort_ok _).
  - repeat case_match; simpl; lia.
  - by intros ->.
Qed.

(** X11.  With the share-as mechanism off, a dial for a known share goes
    to whatever address [SetFileServerAddr] stored last, whatever the
    share and its owner: over TCP if it parses as address and port,
    otherwise as a safesocket path; and while the stored address is empty
    the dial is refused. *)
Theorem Dial_uses_file_server_addr (w : World) (fileAddr shareAddr shareNameHex port
    shareName : string) (share : tailfs.Share) :
  tailfs_AllowShareAs = false →
  net_SplitHostPort shareAddr = Some (shareNameHex, port) →
  hex_DecodeString shareNameHex = Some shareName →
  fs_shares (fs w) !! shareName = Some share →
  Dial (SetFileServerAddr fileAddr w) shareAddr =
    if decide (fileAddr = EmptyString)
    then (inl (DialRefused (ErrNoAddress shareName)), [])
    else if netip_ParseAddrPort_ok fileAddr
    then (returned (net_Dial_tcp fileAddr), [NetDialTcp fileAddr])
    else (returned (safesocket_Connect fileAddr), [SafesocketConnect fileAddr]).
Proof.
  intros Hoff Hsplit Hdecode Hshare. unfold Dial, backend_addr.
  rewrite Hsplit, Hdecode, Hoff. simpl. by rewrite Hshare.
Qed.

(** The address of every server [SetShares] has just made is empty. *)
Lemma SetShares_backend_addr (shareSet : gmap string tailfs.Share) (w : World)
    (executable : string) (share : tailfs.Share) :
  tailfs_AllowShareAs = true → os_Executable = inr executable →
  pointers_allocated w →
  backend_addr (SetShares shareSet w) share = EmptyString.
Proof.
  intros Hallow Hexe Hwf. unfold backend_addr. rewrite Hallow. simpl.
  pose proof (SetShares_view_enabled shareSet w executable Hallow Hexe) as Hview.
  injection Hview as _ _ Hus _. rewrite Hus.
  destruct (new_userServers _ !! tailfs.As share) as [p|] eqn:Hp; [|done].
  apply new_userServers_lookup in Hp as [u Hin].
  destruct (SetShares_heap_enabled shareSet w executable p _ Hallow Hexe Hwf Hin)
    as [Hheap _].
  rewrite Hheap. by apply elem_of_new_servers in Hin as (_ & _ & ->).
Qed.

(** X12.  Right after [SetShares] has installed a share set, with the
    share-as mechanism on, a dial for any share of the set is refused with
    "unable to determine address" and attempts no connection: no server of
    the new generation has published an address yet, and an address
    published in the previous generation is not used. *)
Theorem Dial_after_SetShares_has_no_address (shareSet : gmap string tailfs.Share)
    (w : World) (executable shareAddr shareNameHex port shareName : string)
    (share : tailfs.Share) :
  tailfs_AllowShareAs = true → os_Executable = inr executable →
  pointers_allocated w →
  net_SplitHostPort shareAddr = Some (shareNameHex, port) →
  hex_DecodeString shareNameHex = Some shareName →
  shareSet !! shareName = Some share →
  Dial (SetShares shareSet w) shareAddr =
    (inl (DialRefused (ErrNoAddress shareName)), []).
Proof.
  intros Hallow Hexe Hwf Hsplit Hdecode Hshare. unfold Dial.
  rewrite Hsplit, Hdecode.
  pose proof (SetShares_view_enabled shareSet w executable Hallow Hexe) as Hview.
  injection Hview as Hs _ _ _. rewrite Hs, Hshare.
  by rewrite (SetShares_backend_addr shareSet w executable share), decide_True.
Qed.

(** X13.  Once the run loop of the share's owner has started a child and
    read its address line, a dial for the share connects to the trimmed
    line: over TCP if it parses as address and port, otherwise as a
    safesocket path. *)
Theorem Dial_after_run_reaches_the_child (w : World) (o : RunEnv) (p : loc)
    (s : userServer) (pid : nat) (line shareAddr shareNameHex port shareName : string)
    (share : tailfs.Share) :
  tailfs_AllowShareAs = true →
  net_SplitHostPort shareAddr = Some (shareNameHex, port) →
  hex_DecodeString shareNameHex = Some shareName →
  fs_shares (fs w) !! shareName = Some share →
  userServers (fs w) !! tailfs.As share = Some p →
  heap w !! p = Some s →
  launches o s = true →
  StdoutPipe_err o = None → StderrPipe_err o = None →
  Start_result o = inr pid →
  first_Scan o = ScanLine line →
  strings_TrimSpace line ≠ EmptyString →
  Dial (run_at o p w) shareAddr =
    if netip_ParseAddrPort_ok (strings_TrimSpace line)
    then (returned (net_Dial_tcp (strings_TrimSpace line)),
          [NetDialTcp (strings_TrimSpace line)])
    else (returned (safesocket_Connect (strings_TrimSpace line)),
          [SafesocketConnect (strings_TrimSpace line)]).
Proof.
  intros Hallow Hsplit Hdecode Hshare Hp Hs Hlaunch Hout Herr Hstart Hscan Hline.
  assert (Haddr : addr (run o s).1.2 = strings_TrimSpace line).
  { unfold run, launches in *. destruct (canSudo o s); simpl in Hlaunch.
    - unfold run_started. by rewrite Hout, Herr, Hstart, Hscan.
    - destruct (assertNotRoot o); [done|].
      unfold run_started. by rewrite Hout, Herr, Hstart, Hscan. }
  unfold Dial. rewrite Hsplit, Hdecode. unfold run_at. rewrite Hs. simpl.
  rewrite Hshare. unfold backend_addr. rewrite Hallow. simpl.
  rewrite Hp, lookup_insert_eq, Haddr. by rewrite decide_False.
Qed.
End Dial_more.

(** ** What [SetShares] and [Close] leave behind *)

Section teardown_more.
Context `{Platform}.

Lemma apply_step_fileServerAddr (a : step) (w : World) :
  fileServerAddr (fs (apply_step a w)) = fileServerAddr (fs w).
Proof.
  destruct a; try reflexivity. simpl.
  destruct (heap w !! p); [|done]. by destruct (userServer_Close _) as [[??]?].
Qed.

Lemma exec_steps_fileServerAddr (l : list step) (w : World) :
  fileServerAddr (fs (exec_steps l w)) = fileServerAddr (fs w).
Proof.
  revert w. induction l as [|a l IH]; intros w; [done|].
  rewrite exec_steps_cons, IH. apply apply_step_fileServerAddr.
Qed.

Lemma apply_step_effects (a : step) (w : World) :
  ∃ es, effects (apply_step a w) = effects w ++ es ∧
        go_effects es = spawned [a].
Proof.
  destruct a; simpl; try (by exists []; rewrite app_nil_r); try (by eexists).
  destruct (heap w !! p); [|by exists []; rewrite app_nil_r].
  destruct (userServer_Close _) as [[err s'] killed]. simpl.
  eexists. split; [done|]. unfold go_effects. rewrite !omap_app.
  by destruct killed, err.
Qed.

Lemma exec_steps_effects (l : list step) (w : World) :
  ∃ es, effects (exec_steps l w) = effects w ++ es ∧ go_effects es = spawned l.
Proof.
  revert w. induction l as [|a l IH]; intros w.
  { exists []. by rewrite app_nil_r. }
  rewrite exec_steps_cons. destruct (IH (apply_step a w)) as (es2 & -> & Hgo2).
  destruct (apply_step_effects a w) as (es1 & -> & Hgo1).
  exists (es1 ++ es2). split; [by rewrite app_assoc|].
  unfold go_effects in *. rewrite omap_app, Hgo1, Hgo2.
  unfold spawned. by destruct a.
Qed.

Lemma exec_steps_effects_mono (l : list step) (w : World) (e : effect) :
  e ∈ effects w → e ∈ effects (exec_steps l w).
Proof.
  intros He. destruct (exec_steps_effects l w) as (es & -> & _).
  apply elem_of_app. by left.
Qed.

Lemma set_closed_idemp (s : userServer) :
  set_closed true (set_closed true s) = set_closed true s.
Proof. done. Qed.

Lemma apply_stop_heap (p : loc) (w : World) (s : userServer) :
  heap w !! p = Some s →
  heap (apply_step (SStop p) w) !! p = Some (set_closed true s).
Proof.
  intros Hs. simpl. rewrite Hs. unfold userServer_Close.
  destruct (cmd s) as [c|]; [destruct (exec.Process c)|]; simpl; apply lookup_insert_eq.
Qed.

(** Teardown steps leave a server as it was or closed, and closed if it is
    among the servers stopped. *)
Lemma teardown_closed (l : list step) (w : World) (p : loc) (s : userServer) :
  Forall (λ a, is_teardown a = true) l →
  heap w !! p = Some s →
  ∃ s', heap (exec_steps l w) !! p = Some s' ∧
        (s' = s ∨ s' = set_closed true s) ∧
        (SStop p ∈ l → s' = set_closed true s).
Proof.
  revert w s. induction l as [|a l IH]; intros w s Hl Hs.
  { exists s. split_and!; [done|by left|]. intros Hin. by apply elem_of_nil in Hin. }
  apply Forall_cons in Hl as [Ha Hl]. rewrite exec_steps_cons.
  destruct a as [| | | | | | | | |q|c]; try discriminate.
  - destruct (decide (q = p)) as [->|Hne].
    + destruct (IH _ _ Hl (apply_stop_heap p w s Hs)) as (s' & Hs' & Hor & _).
      exists s'. rewrite set_closed_idemp in Hor.
      assert (s' = set_closed true s) by (by destruct Hor).
      split_and!; [done|by right|done].
    + destruct (IH (apply_step (SStop q) w) s Hl) as (s' & Hs' & Hor & Hin).
      { rewrite apply_step_heap_other; [done|]. simpl. congruence. }
      exists s'. split_and!; [done..|]. intros Hp. apply Hin.
      apply elem_of_cons in Hp as [[= ?]|Hp]; [congruence|done].
  - destruct (IH (apply_step (SCloseIdle c) w) s Hl Hs) as (s' & Hs' & Hor & Hin).
    exists s'. split_and!; [done..|]. intros Hp. apply Hin.
    by apply elem_of_cons in Hp as [[=]|Hp].
Qed.

(** What a stop among teardown steps leaves in the log. *)
Lemma teardown_stop_effects (l : list step) (w : World) (p : loc) (s : userServer) :
  Forall (λ a, is_teardown a = true) l →
  SStop p ∈ l →
  heap w !! p = Some s →
  EStopped p ∈ effects (exec_steps l w) ∧
  ∀ c pid, cmd s = Some c → exec.Process c = Some pid →
    EKill pid ∈ effects (exec_steps l w) ∧
    ∀ e, Process_Kill pid = Some e →
         ELogf "error closing tailfs user server: %v" [e] ∈ effects (exec_steps l w).
Proof.
  intros Hl Hin Hs. apply list_elem_of_split in Hin as (l1 & l2 & ->).
  apply Forall_app in Hl as [Hl1 _].
  destruct (teardown_closed l1 w p s Hl1 Hs) as (s1 & Hs1 & Hor & _).
  assert (Hcmd : cmd s1 = cmd s) by (by destruct Hor as [->| ->]).
  rewrite exec_steps_app, exec_steps_cons.
  set (w1 := exec_steps l1 w) in *.
  assert (Hstep : EStopped p ∈ effects (apply_step (SStop p) w1) ∧
    ∀ c pid, cmd s = Some c → exec.Process c = Some pid →
      EKill pid ∈ effects (apply_step (SStop p) w1) ∧
      ∀ e, Process_Kill pid = Some e →
           ELogf "error closing tailfs user server: %v" [e]
             ∈ effects (apply_step (SStop p) w1)).
  { simpl. rewrite Hs1. unfold userServer_Close. rewrite Hcmd.
    destruct (cmd s) as [c|]; [destruct (exec.Process c) as [pid|] eqn:Hpid|]; simpl.
    - split; [repeat (rewrite elem_of_app || rewrite elem_of_cons); auto 10|].
      intros c' pid' [= <-] Hpid'. rewrite Hpid in Hpid'. injection Hpid' as <-.
      split; [repeat (rewrite elem_of_app || rewrite elem_of_cons); auto 10|].
      intros e ->. repeat (rewrite elem_of_app || rewrite elem_of_cons). auto 10.
    - split; [repeat (rewrite elem_of_app || rewrite elem_of_cons); auto 10|].
      intros c' pid' [= <-] Hpid'. congruence.
    - split; [repeat (rewrite elem_of_app || rewrite elem_of_cons); auto 10|]. done. }
  destruct Hstep as [Hstop Hkill]. split.
  - by apply exec_steps_effects_mono.
  - intros c pid Hc Hpid. destruct (Hkill c pid Hc Hpid) as [Hk Hlog]. split.
    + by apply exec_steps_effects_mono.
    + intros e He. by apply exec_steps_effects_mono, Hlog.
Qed.

Lemma teardown_close_effects (l : list step) (w : World) (c : compositedav.Child) :
  SCloseIdle c ∈ l →
  ECloseIdle (compositedav.ptr c) ∈ effects (exec_steps l w).
Proof.
  intros Hin. apply list_elem_of_split in Hin as (l1 & l2 & ->).
  rewrite exec_steps_app, exec_steps_cons. apply exec_steps_effects_mono.
  simpl. rewrite elem_of_app, list_elem_of_singleton. by right.
Qed.

(** The teardown that ends [SetShares] and [Close], run in a world of
    which the previous userServers map was [us] and the previous children
    map [cs]. *)
Lemma previous_generation_torn_down (us : gmap string loc)
    (cs : gmap string compositedav.Child) (w : World) :
  let w' := exec_steps (stopUserServers us ++ closeChildren cs) w in
  (∀ owner p s, us !! owner = Some p → heap w !! p = Some s →
     heap w' !! p = Some (set_closed true s) ∧
     EStopped p ∈ effects w' ∧
     ∀ c pid, cmd s = Some c → exec.Process c = Some pid →
       EKill pid ∈ effects w' ∧
       ∀ e, Process_Kill pid = Some e →
            ELogf "error closing tailfs user server: %v" [e] ∈ effects w') ∧
  (∀ name c, cs !! name = Some c → ECloseIdle (compositedav.ptr c) ∈ effects w') ∧
  (∀ p s, heap w !! p = Some s → (∀ owner, us !! owner ≠ Some p) →
     heap w' !! p = Some s).
Proof.
  intros w'. subst w'. pose proof (teardown_steps us cs) as Hl. split_and!.
  - intros owner p s Hp Hs.
    assert (Hin : SStop p ∈ stopUserServers us ++ closeChildren cs).
    { apply elem_of_app. left. apply list_elem_of_fmap. exists (owner, p).
      split; [done|]. by apply elem_of_map_to_list. }
    destruct (teardown_closed _ w p s Hl Hs) as (s' & Hs' & _ & Hclosed).
    split; [by rewrite Hs', (Hclosed Hin)|].
    by apply teardown_stop_effects.
  - intros name c Hc. apply teardown_close_effects.
    apply elem_of_app. right. apply list_elem_of_fmap. exists (name, c).
    split; [done|]. by apply elem_of_map_to_list.
  - intros p s Hs Hnot. rewrite exec_steps_heap_other; [done|].
    apply Forall_app. split; apply Forall_fmap, Forall_forall.
    + intros [owner q] Hq. simpl. intros [= ->].
      apply elem_of_map_to_list in Hq. by apply (Hnot owner).
    + by intros.
Qed.

Lemma Close_view (w : World) : view (Close w) = (fs_shares (fs w), ∅, ∅, false).
Proof.
  unfold Close.
  change (Close_steps w) with
    ([SLock; SSetUserServers ∅; SSetChildren ∅; SUnlock] ++
     (stopUserServers (userServers (fs w)) ++ closeChildren (children (fs w)))).
  rewrite exec_steps_app, exec_teardown_view; [done|apply teardown_steps].
Qed.

(** X14.  [Close] empties the children and userServers maps and leaves the
    share map and the file server address; every server of the
    generation it found is marked closed and its [Close] has returned,
    every child process those servers recorded has been killed (a failing
    kill is logged and does not stop the rest), every child transport has
    been asked to close its idle connections, and servers outside that
    generation are untouched. *)
Theorem Close_tears_down_everything (w : World) :
  let w' := Close w in
  generation w' = (fs_shares (fs w), ∅, ∅) ∧
  fileServerAddr (fs w') = fileServerAddr (fs w) ∧
  mu_locked w' = false ∧
  (∀ owner p s, userServers (fs w) !! owner = Some p → heap w !! p = Some s →
     heap w' !! p = Some (set_closed true s) ∧
     EStopped p ∈ effects w' ∧
     ∀ c pid, cmd s = Some c → exec.Process c = Some pid →
       EKill pid ∈ effects w' ∧
       ∀ e, Process_Kill pid = Some e →
            ELogf "error closing tailfs user server: %v" [e] ∈ effects w') ∧
  (∀ name c, children (fs w) !! name = Some c →
     ECloseIdle (compositedav.ptr c) ∈ effects w') ∧
  (∀ p s, heap w !! p = Some s → (∀ owner, userServers (fs w) !! owner ≠ Some p) →
     heap w' !! p = Some s).
Proof.
  intros w'. subst w'. unfold Close.
  change (Close_steps w) with
    ([SLock; SSetUserServers ∅; SSetChildren ∅; SUnlock] ++
     (stopUserServers (userServers (fs w)) ++ closeChildren (children (fs w)))).
  rewrite exec_steps_app.
  set (w1 := exec_steps [SLock; SSetUserServers ∅; SSetChildren ∅; SUnlock] w).
  pose proof (exec_teardown_view _ w1
                (teardown_steps (userServers (fs w)) (children (fs w)))) as Hv.
  destruct (previous_generation_torn_down (userServers (fs w)) (children (fs w)) w1)
    as (Hstop & Hidle & Hother).
  split_and!.
  - etrans; [exact (f_equal fst Hv)|reflexivity].
  - by rewrite exec_steps_fileServerAddr.
  - exact (f_equal snd Hv).
  - intros owner p s Hp Hs. by apply (Hstop owner).
  - done.
  - intros p s Hs Hnot. by apply Hother.
Qed.

(** X15.  A second [Close] changes nothing: it finds no server and no
    child to tear down. *)
Theorem Close_twice (w : World) : Close (Close w) = Close w.
Proof.
  pose proof (Close_view w) as Hview.
  destruct (Close w) as [[fa sh ch us] lk hp nx es].
  injection Hview as _ Hch Hus Hlk. simpl in *. subst.
  unfold Close, Close_steps. cbn [fs userServers children].
  unfold stopUserServers, closeChildren. rewrite !map_to_list_empty.
  reflexivity.
Qed.
End teardown_more.

(** ** What [SetShares] installs, stops and starts *)

Section SetShares_more.
Context `{Platform}.

Lemma children_map_snoc (cs : list compositedav.Child) (c : compositedav.Child) :
  children_map (cs ++ [c]) = <[compositedav.Name c := c]> (children_map cs).
Proof. unfold children_map. by rewrite fold_left_app. Qed.

Lemma children_map_lookup (cs : list compositedav.Child) (name : string)
    (c : compositedav.Child) :
  children_map cs !! name = Some c → c ∈ cs ∧ compositedav.Name c = name.
Proof.
  induction cs as [|c' cs IH] using rev_ind; [done|].
  rewrite children_map_snoc.
  destruct (decide (compositedav.Name c' = name)) as [<-|Hne].
  - rewrite lookup_insert_eq. intros [= <-]. split; [|done].
    apply elem_of_app. right. by apply list_elem_of_singleton.
  - rewrite lookup_insert_ne by done. intros Hc. destruct (IH Hc) as [Hin Hname].
    split; [|done]. apply elem_of_app. by left.
Qed.

Lemma children_map_is_Some (cs : list compositedav.Child) (name : string) :
  name ∈ compositedav.Name <$> cs → is_Some (children_map cs !! name).
Proof.
  induction cs as [|c' cs IH] using rev_ind.
  { intros Hin. by apply elem_of_nil in Hin. }
  rewrite fmap_app, elem_of_app, list_fmap_singleton, list_elem_of_singleton.
  rewrite children_map_snoc. intros Hin.
  destruct (decide (compositedav.Name c' = name)) as [<-|Hne].
  - rewrite lookup_insert_eq. by eexists.
  - rewrite lookup_insert_ne by done. apply IH. by destruct Hin.
Qed.

Lemma elem_of_new_children (next : loc) (m : gmap string tailfs.Share)
    (c : compositedav.Child) :
  c ∈ new_children next m →
  ∃ p sh, sh ∈ range_values m ∧ c = buildChild p sh.
Proof.
  unfold new_children. intros Hin.
  apply list_elem_of_fmap in Hin as ([p sh] & -> & Hin).
  apply elem_of_place in Hin as [_ Hin]. by exists p, sh.
Qed.

Lemma new_children_names (next : loc) (m : gmap string tailfs.Share) :
  compositedav.Name <$> new_children next m = tailfs.Name <$> range_values m.
Proof.
  unfold new_children. rewrite <- list_fmap_compose.
  rewrite <- (place_snd next (range_values m)) at 2.
  rewrite <- list_fmap_compose. done.
Qed.

Lemma spawned_app (l1 l2 : list step) : spawned (l1 ++ l2) = spawned l1 ++ spawned l2.
Proof. apply omap_app. Qed.

Lemma spawned_none (l : list step) :
  Forall (λ a, match a with SGo _ => False | _ => True end) l → spawned l = [].
Proof.
  induction 1 as [|a l Ha _ IH]; [done|].
  unfold spawned in *. cbn [omap list_omap]. by destruct a.
Qed.

Lemma spawned_go {A} (f : A → loc) (l : list A) :
  spawned ((λ x, SGo (f x)) <$> l) = f <$> l.
Proof.
  induction l as [|x l IH]; [done|].
  unfold spawned in *. rewrite !fmap_cons. cbn [omap list_omap]. by rewrite IH.
Qed.

(** The steps of a [SetShares] that does not return early: the servers
    and children it makes, and the swap it performs with them. *)
Lemma SetShares_steps_swap (m : gmap string tailfs.Share) (w : World) :
  tailfs_AllowShareAs = false ∨ (∃ executable, os_Executable = inr executable) →
  ∃ servers,
    (tailfs_AllowShareAs = false ∧ servers = [] ∨
     ∃ executable, tailfs_AllowShareAs = true ∧ os_Executable = inr executable ∧
                   servers = new_servers (next_loc w) executable m) ∧
    SetShares_steps m w =
      (((λ x, SNew x.1 x.2.2) <$> servers) ++
       (((λ x, SGo x.1) <$> servers) ++
        (SNewChild <$> new_children (next_loc w + length servers)%nat m))) ++
      [SLock; SSetShares m;
       SSetChildren (children_map (new_children (next_loc w + length servers)%nat m));
       SSetUserServers (new_userServers servers); SUnlock] ++
      (stopUserServers (userServers (fs w)) ++ closeChildren (children (fs w))).
Proof.
  intros Hok. destruct tailfs_AllowShareAs eqn:Hallow.
  - destruct Hok as [|[executable Hexe]]; [done|].
    exists (new_servers (next_loc w) executable m). split.
    + right. by exists executable.
    + by apply SetShares_steps_enabled.
  - exists []. split; [by left|].
    unfold SetShares_steps. rewrite Hallow. reflexivity.
Qed.

Lemma new_servers_fresh (servers : list (loc * (string * userServer))) (w : World)
    (m : gmap string tailfs.Share) (p : loc) :
  (tailfs_AllowShareAs = false ∧ servers = [] ∨
   ∃ executable, tailfs_AllowShareAs = true ∧ os_Executable = inr executable ∧
                 servers = new_servers (next_loc w) executable m) →
  (p < next_loc w)%nat →
  Forall (λ a, object_written a ≠ Some p) ((λ x, SNew x.1 x.2.2) <$> servers).
Proof.
  intros Hservers Hp. apply Forall_fmap, Forall_forall. intros [q [owner u]] Hin. simpl.
  destruct Hservers as [[_ ->]|(executable & _ & _ & ->)].
  { by apply elem_of_nil in Hin. }
  apply elem_of_new_servers in Hin as (Hq & _). intros [= ->]. lia.
Qed.

(** X16.  A [SetShares] that does not return early installs exactly the
    share map it was given, leaves the file server address alone and
    returns with [mu] free.  The children map it installs is keyed by the
    names of the shares (not by the keys of the share map): a name has a
    child exactly when some share carries it, and the child of a name
    carries that name and the base URL made of the hex-encoded name as
    host and the path-escaped name as path. *)
Theorem SetShares_installs (m : gmap string tailfs.Share) (w : World) :
  tailfs_AllowShareAs = false ∨ (∃ executable, os_Executable = inr executable) →
  let w' := SetShares m w in
  fs_shares (fs w') = m ∧
  fileServerAddr (fs w') = fileServerAddr (fs w) ∧
  mu_locked w' = false ∧
  (∀ name, is_Some (children (fs w') !! name) ↔
           ∃ key sh, m !! key = Some sh ∧ tailfs.Name sh = name) ∧
  (∀ name c, children (fs w') !! name = Some c →
     compositedav.Name c = name ∧
     compositedav.BaseURL c =
       "http://" +:+ hex_EncodeToString name +:+ "/" +:+ url_PathEscape name).
Proof.
  intros Hok w'. subst w'.
  destruct (SetShares_steps_swap m w Hok) as (servers & _ & Hsteps).
  set (cs := new_children (next_loc w + length servers)%nat m) in *.
  assert (Hview : view (SetShares m w) =
                  (m, children_map cs, new_userServers servers, false)).
  { unfold SetShares. rewrite Hsteps, exec_steps_app, exec_steps_app.
    rewrite exec_teardown_view; [done|apply teardown_steps]. }
  injection Hview as Hs Hc _ Hl. rewrite Hc.
  split_and!; [done|apply exec_steps_fileServerAddr|done| |].
  - intros name. split.
    + intros [c Hlookup]. apply children_map_lookup in Hlookup as [Hin <-].
      apply elem_of_new_children in Hin as (p & sh & Hin & ->).
      apply elem_of_range_values in Hin as [key Hkey]. by exists key, sh.
    + intros (key & sh & Hkey & <-). apply children_map_is_Some.
      unfold cs. rewrite new_children_names. apply list_elem_of_fmap.
      exists sh. split; [done|]. apply elem_of_range_values. by exists key.
  - intros name c Hlookup. apply children_map_lookup in Hlookup as [Hin <-].
    by apply elem_of_new_children in Hin as (p & sh & Hin & ->).
Qed.

(** X17.  A [SetShares] that does not return early stops the whole
    previous generation: each of its servers is marked closed and its
    [Close] has returned, each child process recorded is killed (a failing
    kill is logged), and each previous child transport is asked to close
    its idle connections. *)
Theorem SetShares_tears_down_previous (m : gmap string tailfs.Share) (w : World) :
  tailfs_AllowShareAs = false ∨ (∃ executable, os_Executable = inr executable) →
  pointers_allocated w →
  let w' := SetShares m w in
  (∀ owner p s, userServers (fs w) !! owner = Some p → heap w !! p = Some s →
     heap w' !! p = Some (set_closed true s) ∧
     EStopped p ∈ effects w' ∧
     ∀ c pid, cmd s = Some c → exec.Process c = Some pid →
       EKill pid ∈ effects w' ∧
       ∀ e, Process_Kill pid = Some e →
            ELogf "error closing tailfs user server: %v" [e] ∈ effects w') ∧
  (∀ name c, children (fs w) !! name = Some c →
     ECloseIdle (compositedav.ptr c) ∈ effects w').
Proof.
  intros Hok Hwf w'. subst w'.
  destruct (SetShares_steps_swap m w Hok) as (servers & Hservers & Hsteps).
  unfold SetShares. rewrite Hsteps, app_assoc, exec_steps_app.
  match goal with |- context [exec_steps (?pre ++ ?mid) w] =>
    set (w1 := exec_steps (pre ++ mid) w);
    assert (Hold : ∀ p, (p < next_loc w)%nat → heap w1 !! p = heap w !! p)
  end.
  { intros p Hp. unfold w1. apply exec_steps_heap_other.
    rewrite !Forall_app. split_and!.
    - by apply (new_servers_fresh servers w m).
    - apply Forall_fmap, Forall_forall. by intros.
    - apply Forall_fmap, Forall_forall. by intros.
    - repeat constructor; done. }
  destruct (previous_generation_torn_down (userServers (fs w)) (children (fs w)) w1)
    as (Hstop & Hidle & _).
  split; [|done].
  intros owner p s Hp Hs. apply (Hstop owner); [done|].
  rewrite Hold; [done|]. by apply (Hwf owner).
Qed.

(** X18.  A [SetShares] that does not return early starts one run loop
    for each server of the map it installs, each once, and no other; with
    the share-as mechanism off it starts none. *)
Theorem SetShares_starts_one_loop_per_server (m : gmap string tailfs.Share)
    (w : World) :
  tailfs_AllowShareAs = false ∨ (∃ executable, os_Executable = inr executable) →
  let w' := SetShares m w in
  ∃ ps, go_effects (effects w') = go_effects (effects w) ++ ps ∧
        NoDup ps ∧
        (∀ p, p ∈ ps ↔ ∃ owner, userServers (fs w') !! owner = Some p) ∧
        (tailfs_AllowShareAs = false → ps = [] ∧ userServers (fs w') = ∅).
Proof.
  intros Hok w'. subst w'.
  destruct (SetShares_steps_swap m w Hok) as (servers & Hservers & Hsteps).
  assert (Hview : view (SetShares m w) =
    (m, children_map (new_children (next_loc w + length servers)%nat m),
     new_userServers servers, false)).
  { unfold SetShares. rewrite Hsteps, exec_steps_app, exec_steps_app.
    rewrite exec_teardown_view; [done|apply teardown_steps]. }
  injection Hview as _ _ Hus _. rewrite Hus.
  exists (servers.*1). split_and!.
  - unfold SetShares. destruct (exec_steps_effects (SetShares_steps m w) w)
      as (es & -> & Hgo).
    unfold go_effects in *. rewrite omap_app, Hgo, Hsteps.
    rewrite !spawned_app, spawned_go. f_equal.
    rewrite (spawned_none (_ <$> servers))
      by (apply Forall_fmap, Forall_forall; by intros).
    rewrite (spawned_none (SNewChild <$> _))
      by (apply Forall_fmap, Forall_forall; by intros).
    rewrite (spawned_none (stopUserServers _))
      by (apply Forall_fmap, Forall_forall; by intros).
    rewrite (spawned_none (closeChildren _))
      by (apply Forall_fmap, Forall_forall; by intros).
    by rewrite !app_nil_r.
  - destruct Hservers as [[_ ->]|(executable & _ & _ & ->)]; [constructor|].
    apply NoDup_place_fst.
  - intros p. destruct Hservers as [[_ ->]|(executable & _ & _ & ->)].
    + split; [intros Hin; by apply elem_of_nil in Hin|].
      intros [owner Hp]. change (new_userServers []) with (∅ : gmap string loc) in Hp.
      by rewrite lookup_empty in Hp.
    + rewrite list_elem_of_fmap. split.
      * intros ([q [owner u]] & -> & Hin). exists owner.
        apply new_userServers_lookup. by exists u.
      * intros [owner Hp]. apply new_userServers_lookup in Hp as [u Hin].
        by exists (p, (owner, u)).
  - intros Hoff. destruct Hservers as [[_ ->]|(executable & Hon & _)]; [done|congruence].
Qed.
End SetShares_more.

(** ** The router, further *)

Section router_more.
Context `{Platform}.

(** X19.  [ServeHTTPWithPerms] answers a request itself only when its
    method is one of the eight mutating methods, and then only with "not
    found" (404) for a share the policy answers [None] for or with
    "permission denied" (403) for one it answers [ReadOnly] for; any other
    method, DELETE among them, passes the permission gate.  It panics only
    on a mutating request whose path splits into no segment at all. *)
Theorem ServeHTTPWithPerms_gate (s : FileSystemForRemote)
    (permissions : tailfs.Permissions) (r : http.Request) :
  (∀ msg code, ServeHTTPWithPerms s permissions r = HttpError msg code →
     http.Method r ∈
       ["PUT"; "POST"; "COPY"; "LOCK"; "UNLOCK"; "MKCOL"; "MOVE"; "PROPPATCH"] ∧
     ∃ share rest, shared_CleanAndSplit (http.URL_Path r) = share :: rest ∧
       (tailfs.For permissions share = tailfs.PermissionNone ∧
        msg = "not found" ∧ code = 404 ∨
        tailfs.For permissions share = tailfs.PermissionReadOnly ∧
        msg = "permission denied" ∧ code = 403)) ∧
  (ServeHTTPWithPerms s permissions r = Panic →
     isWrite (http.Method r) = true ∧ shared_CleanAndSplit (http.URL_Path r) = []) ∧
  isWrite "DELETE" = false ∧ isWrite "GET" = false ∧ isWrite "PROPFIND" = false.
Proof.
  unfold ServeHTTPWithPerms. split_and!; [| |done..].
  - intros msg code. destruct (isWrite (http.Method r)) eqn:Hw; [|done].
    apply isWrite_methods in Hw.
    destruct (shared_CleanAndSplit (http.URL_Path r)) as [|share rest]; [done|].
    destruct (tailfs.For permissions share) eqn:Hperm; [| |done].
    + intros [= <- <-]. split; [done|]. exists share, rest. split; [done|]. by left.
    + intros [= <- <-]. split; [done|]. exists share, rest. split; [done|]. by right.
  - destruct (isWrite (http.Method r)); [|done].
    destruct (shared_CleanAndSplit (http.URL_Path r)) as [|share rest]; [done|].
    by destruct (tailfs.For permissions share).
Qed.

(** X20.  Whenever [ServeHTTPWithPerms] hands a request to the composed
    handler, it hands over the request it received and exactly the
    children whose names the policy does not answer [None] for: no child
    of a hidden share, and no more children than shares. *)
Theorem ServeHTTPWithPerms_dispatches_visible (s : FileSystemForRemote)
    (permissions : tailfs.Permissions) (r r' : http.Request)
    (cs : list compositedav.Child) :
  ServeHTTPWithPerms s permissions r = Dispatch cs r' →
  r' = r ∧
  (∀ c, c ∈ cs ↔ ∃ name, children s !! name = Some c ∧
                         tailfs.For permissions name ≠ tailfs.PermissionNone) ∧
  (length cs ≤ size (children s))%nat.
Proof.
  intros Hserved.
  assert (Hcs : cs = visible_children permissions (children s) ∧ r' = r).
  { unfold ServeHTTPWithPerms in Hserved.
    destruct (isWrite (http.Method r)); [|by injection Hserved as <- <-].
    destruct (shared_CleanAndSplit (http.URL_Path r)) as [|share rest]; [done|].
    destruct (tailfs.For permissions share); [done..|]. by injection Hserved as <- <-. }
  destruct Hcs as [-> ->]. split_and!; [done| |].
  - intros c. apply elem_of_visible_children.
  - unfold visible_children. rewrite length_fmap.
    etrans; [apply length_filter|]. by rewrite length_map_to_list.
Qed.

(** X21.  When the policy answers [ReadWrite] for the share a request
    names, the request is handed to the composed handler whatever its
    method, with the share's child among the children. *)
Theorem readwrite_permission_dispatches (s : FileSystemForRemote)
    (permissions : tailfs.Permissions) (r : http.Request)
    (share : string) (rest : list string) :
  shared_CleanAndSplit (http.URL_Path r) = share :: rest →
  tailfs.For permissions share = tailfs.PermissionReadWrite →
  ServeHTTPWithPerms s permissions r =
    Dispatch (visible_children permissions (children s)) r ∧
  ∀ c, children s !! share = Some c →
       c ∈ visible_children permissions (children s).
Proof.
  intros Hsplit Hperm. split.
  - unfold ServeHTTPWithPerms. rewrite Hsplit, Hperm.
    by destruct (isWrite (http.Method r)).
  - intros c Hc. apply elem_of_visible_children. exists share.
    split; [done|]. by rewrite Hperm.
Qed.

(** X22.  After [Close] the router has no share to offer: whatever it
    dispatches carries no children; and with the share-as mechanism on,
    no dial attempts a connection any more, since no server is left to
    give an address. *)
Theorem nothing_served_after_Close (w : World) (permissions : tailfs.Permissions)
    (r : http.Request) (shareAddr : string) :
  (∀ cs r', ServeHTTPWithPerms (fs (Close w)) permissions r = Dispatch cs r' →
            cs = []) ∧
  (tailfs_AllowShareAs = true → (Dial (Close w) shareAddr).2 = []).
Proof.
  pose proof (Close_view w) as Hview. injection Hview as _ Hch Hus _. split.
  - intros cs r' Hserved.
    assert (Hvis : visible_children permissions (children (fs (Close w))) = []).
    { rewrite Hch. unfold visible_children. by rewrite map_to_list_empty. }
    unfold ServeHTTPWithPerms in Hserved. rewrite Hvis in Hserved.
    destruct (isWrite (http.Method r)); [|by injection Hserved as <- _].
    destruct (shared_CleanAndSplit (http.URL_Path r)) as [|share rest]; [done|].
    destruct (tailfs.For permissions share); [done..|]. by injection Hserved as <- _.
  - intros Hon. unfold Dial.
    destruct (net_SplitHostPort shareAddr) as [[shareNameHex port]|]; [|done].
    destruct (hex_DecodeString shareNameHex) as [shareName|]; [|done].
    destruct (fs_shares (fs (Close w)) !! shareName) as [share|]; [|done].
    unfold backend_addr. rewrite Hon, Hus, lookup_empty. done.
Qed.
End router_more.

(** ** The further properties at work *)

Lemma with_object_pointers_allocated (p : loc) (u : userServer) (w : World) :
  pointers_allocated w → pointers_allocated (with_object p u w).
Proof.
  intros Hwf owner q Hq. specialize (Hwf owner q Hq). simpl. lia.
Qed.

Lemma world0_pointers_allocated : pointers_allocated Sample.world0.
Proof. intros owner p Hp. vm_compute in Hp. discriminate. Qed.

Lemma installed_pointers_allocated : pointers_allocated SwapSample.installed.
Proof.
  apply (SetShares_pointers_allocated (H:=SwapSample.P)), world0_pointers_allocated.
Qed.

Lemma running_pointers_allocated : pointers_allocated MoreSample.running.
Proof.
  intros owner p Hp. by apply installed_pointers_allocated in Hp.
Qed.

Lemma run_without_sudo_never_starts_as_root_witness :
  ∃ u, user_Current RunSample.healthy = inr u ∧ user.Uid u ≠ "0".
Proof.
  apply (run_without_sudo_never_starts_as_root (H:=RunSample.P)
           RunSample.healthy RunSample.alice RunSample.child).
  - reflexivity.
  - apply list_elem_of_lookup. exists 1%nat. reflexivity.
Defined.

Lemma Close_kills_the_started_child_witness :
  ∃ pid, exec.Process RunSample.child = Some pid ∧
         userServer_Close (H:=RunSample.P)
           (run (H:=RunSample.P) RunSample.healthy RunSample.alice).1.2 =
           (None, set_closed true
                    (run (H:=RunSample.P) RunSample.healthy RunSample.alice).1.2,
            Some pid).
Proof.
  apply (Close_kills_the_started_child (H:=RunSample.P)
           RunSample.healthy RunSample.alice RunSample.child).
  apply list_elem_of_lookup. exists 1%nat. reflexivity.
Defined.

Lemma runLoop_stops_at_close_witness :
  length (runLoop (H:=RunSample.P)
            ([SwapSample.crash; SwapSample.crash] ++
             MoreSample.close_now :: [SwapSample.crash])
            SwapSample.clock0 RunSample.alice).2 = 2%nat.
Proof.
  destruct (runLoop_stops_at_close (H:=RunSample.P)
              [SwapSample.crash; SwapSample.crash] MoreSample.close_now
              [SwapSample.crash] SwapSample.clock0 RunSample.alice) as [Hopen _].
  - repeat constructor.
  - reflexivity.
  - exact (proj1 (Hopen eq_refl)).
Defined.

Lemma runLoop_delay_doubles_witness :
  ∃ a b,
    (runLoop (H:=RunSample.P) MoreSample.failing SwapSample.clock0 RunSample.alice).2
      !! 0%nat = Some a ∧
    (runLoop (H:=RunSample.P) MoreSample.failing SwapSample.clock0 RunSample.alice).2
      !! 1%nat = Some b ∧
    at_sleep a ≤ at_sleep b ∧
    at_sleep b = Z.min (2 * at_sleep a) maxSleepTime.
Proof.
  destruct ((runLoop (H:=RunSample.P) MoreSample.failing SwapSample.clock0
               RunSample.alice).2 !! 0%nat) as [a|] eqn:Ha; [|vm_compute in Ha; discriminate].
  destruct ((runLoop (H:=RunSample.P) MoreSample.failing SwapSample.clock0
               RunSample.alice).2 !! 1%nat) as [b|] eqn:Hb; [|vm_compute in Hb; discriminate].
  exists a, b. split; [reflexivity|]. split; [reflexivity|].
  apply (runLoop_delay_doubles (H:=RunSample.P) MoreSample.failing SwapSample.clock0
           RunSample.alice 0%nat a b Ha Hb).
  vm_compute in Hb. injection Hb as <-. vm_compute. reflexivity.
Defined.

Lemma Dial_uses_file_server_addr_witness :
  Dial (H:=SwapSample.Poff)
    (SetFileServerAddr "127.0.0.1:9000" SwapSample.installed) "41:80" =
    (inr 1%nat, [NetDialTcp "127.0.0.1:9000"]).
Proof.
  rewrite (Dial_uses_file_server_addr (H:=SwapSample.Poff) SwapSample.installed
             "127.0.0.1:9000" "41:80" "41" "80" "A" Sample.A eq_refl eq_refl eq_refl).
  - reflexivity.
  - vm_compute. reflexivity.
Defined.

Lemma Dial_after_SetShares_has_no_address_witness :
  Dial (H:=SwapSample.P) (SetShares (H:=SwapSample.P) SwapSample.ab MoreSample.running)
    "41:80" = (inl (DialRefused (ErrNoAddress "A")), []).
Proof.
  apply (Dial_after_SetShares_has_no_address (H:=SwapSample.P) SwapSample.ab
           MoreSample.running Sample.tailscaled "41:80" "41" "80" "A" Sample.A
           eq_refl eq_refl running_pointers_allocated eq_refl eq_refl).
  vm_compute. reflexivity.
Defined.

Lemma Dial_after_run_reaches_the_child_witness :
  Dial (H:=RunSample.P) MoreSample.running "41:80" =
    (inr 1%nat, [NetDialTcp "127.0.0.1:8080"]).
Proof.
  unfold MoreSample.running.
  rewrite (Dial_after_run_reaches_the_child (H:=RunSample.P) SwapSample.installed
             RunSample.healthy 0%nat RunSample.alice 7%nat " 127.0.0.1:8080 "
             "41:80" "41" "80" "A" Sample.A eq_refl eq_refl eq_refl).
  - reflexivity.
  - vm_compute. reflexivity.
  - vm_compute. reflexivity.
  - vm_compute. reflexivity.
  - reflexivity.
  - reflexivity.
  - reflexivity.
  - reflexivity.
  - reflexivity.
  - vm_compute. discriminate.
Defined.

Lemma SetShares_installs_witness :
  fs_shares (fs (SetShares (H:=SwapSample.P) SwapSample.ab MoreSample.running)) =
    SwapSample.ab ∧
  mu_locked (SetShares (H:=SwapSample.P) SwapSample.ab MoreSample.running) = false.
Proof.
  destruct (SetShares_installs (H:=SwapSample.P) SwapSample.ab MoreSample.running)
    as (Hs & _ & Hl & _).
  - right. by exists Sample.tailscaled.
  - split; [exact Hs|exact Hl].
Defined.

Lemma SetShares_tears_down_previous_witness :
  EKill 7%nat ∈ effects (SetShares (H:=SwapSample.P) SwapSample.ab MoreSample.running) ∧
  closed <$> heap (SetShares (H:=SwapSample.P) SwapSample.ab MoreSample.running) !! 0%nat
    = Some true.
Proof.
  destruct (SetShares_tears_down_previous (H:=SwapSample.P) SwapSample.ab
              MoreSample.running) as [Hstop _].
  - right. by exists Sample.tailscaled.
  - exact running_pointers_allocated.
  - destruct (Hstop "alice" 0%nat
                (run (H:=RunSample.P) RunSample.healthy RunSample.alice).1.2)
      as (Hheap & _ & Hkill).
    + vm_compute. reflexivity.
    + vm_compute. reflexivity.
    + split.
      * exact (proj1 (Hkill RunSample.child 7%nat eq_refl eq_refl)).
      * etrans; [exact (f_equal (fmap closed) Hheap)|reflexivity].
Defined.

Lemma SetShares_starts_one_loop_per_server_witness :
  ∃ ps, go_effects (effects (SetShares (H:=SwapSample.P) SwapSample.ab Sample.world0)) =
          go_effects (effects Sample.world0) ++ ps ∧ NoDup ps.
Proof.
  destruct (SetShares_starts_one_loop_per_server (H:=SwapSample.P) SwapSample.ab
              Sample.world0) as (ps & Hgo & Hnd & _).
  - right. by exists Sample.tailscaled.
  - exists ps. split; [exact Hgo|exact Hnd].
Defined.

Lemma ServeHTTPWithPerms_dispatches_visible_witness :
  (length (visible_children RouterSample.reader (children RouterSample.fsA))
     ≤ size (children RouterSample.fsA))%nat.
Proof.
  destruct (ServeHTTPWithPerms_dispatches_visible (H:=RouterSample.P)
              RouterSample.fsA RouterSample.reader RouterSample.GET RouterSample.GET
              (visible_children RouterSample.reader (children RouterSample.fsA)))
    as (_ & _ & Hlen).
  - reflexivity.
  - exact Hlen.
Defined.

Lemma readwrite_permission_dispatches_witness :
  ServeHTTPWithPerms (H:=RouterSample.P) RouterSample.fsA MoreSample.writer
    RouterSample.PUT =
    Dispatch (visible_children MoreSample.writer (children RouterSample.fsA))
      RouterSample.PUT.
Proof.
  exact (proj1 (readwrite_permission_dispatches (H:=RouterSample.P) RouterSample.fsA
                  MoreSample.writer RouterSample.PUT "A" ["file.txt"]
                  eq_refl eq_refl)).
Defined.
